(** * Document summarizer front end: store, upload pipeline and list view

    A shallow embedding of the client-side state of the document
    summarizer:

    - [src/frontend/src/store/documentStore.ts]: the zustand store and
      its actions;
    - [src/frontend/src/components/DocumentUpload.tsx]: the [onDrop]
      upload loop of [DocumentUpload], [isActive] of [Layout] and
      [handleDelete] of [DocumentCard];
    - [src/frontend/src/pages/HomePage.tsx]: [loadDocuments], the
      [filteredAndSortedDocuments] view, the [stats] and the documents
      section of [HomePage]; [loadDocument], [generateSummary],
      [changePage] and the screens of [DocumentViewer].

    JavaScript strings are modelled as [string], integral numbers (byte
    sizes, percentages, milliseconds) as [Z], other numbers as [Q],
    [T | null] and optional fields as [option T], arrays as [list].
    An [async] function is cut at its [await]s: what runs between two
    of them is one function on the state, and the outcome of the awaited
    promise is its argument.  The upload component is a machine whose
    events are drops, progress reports, settled uploads and timers, over
    a virtual clock in milliseconds.  What the host provides
    ([isValidPDF] of [lib/utils], date parsing, [localeCompare],
    [toLowerCase]) is a parameter. *)

From Stdlib Require Import List String Ascii Bool ZArith QArith Lia.
From Stdlib Require Import Sorting.Sorted Sorting.Permutation.
Import ListNotations.
Local Open Scope string_scope.
Local Open Scope list_scope.
Local Open Scope Z_scope.

Set Implicit Arguments.

(** ** Data model ([types/index.ts]) *)

Inductive DocStatus := Uploading | Processing | Completed | Errored.

Definition DocStatus_eqb (a b : DocStatus) : bool :=
  match a, b with
  | Uploading, Uploading | Processing, Processing
  | Completed, Completed | Errored, Errored => true
  | _, _ => false
  end.

Record Summary := mkSummary {
  sum_id : string;
  documentId : string;
  content : string;
  keyPoints : list string;
  createdAt : string;
  processingTime : Q
}.

Inductive HighlightType := KeyPoint | Important | Definition_.

Record Highlight := mkHighlight {
  hl_id : string;
  hl_documentId : string;
  pageNumber : Z;
  hl_x : Q;
  hl_y : Q;
  hl_width : Q;
  hl_height : Q;
  hl_text : string;
  hl_type : HighlightType;
  confidence : Q
}.

Record Document := mkDocument {
  id : string;
  filename : string;
  originalName : string;
  fileSize : Z;
  uploadedAt : string;
  status : DocStatus;
  summary : option Summary;
  highlights : option (list Highlight);
  pageCount : option Z;
  textContent : option string
}.

Inductive Stage := TextExtraction | Summarization | Highlighting | StageCompleted.

Record ProcessingStatus := mkProcessingStatus {
  ps_documentId : string;
  stage : Stage;
  ps_progress : Z;
  message : string
}.

(** [Partial<Document>]: every key may be absent ([None]).  For the
    optional fields of [Document] a key that is present may still hold
    [undefined], hence the nested option. *)
Record PartialDocument := mkPartial {
  p_id : option string;
  p_filename : option string;
  p_originalName : option string;
  p_fileSize : option Z;
  p_uploadedAt : option string;
  p_status : option DocStatus;
  p_summary : option (option Summary);
  p_highlights : option (option (list Highlight));
  p_pageCount : option (option Z);
  p_textContent : option (option string)
}.

(** One key of the object spread [{ ...doc, ...updates }]: the right
    operand wins where it has the key. *)
Definition spread {A} (old : A) (upd : option A) : A :=
  match upd with Some v => v | None => old end.

(** [{ ...doc, ...updates }] *)
Definition merge (doc : Document) (updates : PartialDocument) : Document :=
  {| id := spread (id doc) (p_id updates);
     filename := spread (filename doc) (p_filename updates);
     originalName := spread (originalName doc) (p_originalName updates);
     fileSize := spread (fileSize doc) (p_fileSize updates);
     uploadedAt := spread (uploadedAt doc) (p_uploadedAt updates);
     status := spread (status doc) (p_status updates);
     summary := spread (summary doc) (p_summary updates);
     highlights := spread (highlights doc) (p_highlights updates);
     pageCount := spread (pageCount doc) (p_pageCount updates);
     textContent := spread (textContent doc) (p_textContent updates) |}.

(** ** The document store ([store/documentStore.ts]) *)

Record DocumentStore := mkStore {
  documents : list Document;
  currentDocument : option Document;
  currentSummary : option Summary;
  processingStatus : option ProcessingStatus;
  isLoading : bool;
  error : option string
}.

Definition initialStore : DocumentStore :=
  mkStore [] None None None false None.

(** [state.currentDocument?.id === id]: optional chaining yields
    [undefined] on [null], which is never [===] to a string. *)
Definition currentDocumentIs (id0 : string) (s : DocumentStore) : bool :=
  match currentDocument s with
  | Some d => String.eqb (id d) id0
  | None => false
  end.

(** [state.currentSummary?.documentId === id] *)
Definition currentSummaryOf (id0 : string) (s : DocumentStore) : bool :=
  match currentSummary s with
  | Some sm => String.eqb (documentId sm) id0
  | None => false
  end.

(** zustand's [set(partial)] merges the returned keys into the state and
    keeps the others; each action below writes out the resulting record. *)


Definition addDocument (doc : Document) (s : DocumentStore) : DocumentStore :=
  mkStore (doc :: documents s) (currentDocument s) (currentSummary s)
          (processingStatus s) (isLoading s) (error s).

Definition updateDocument (id0 : string) (updates : PartialDocument)
  (s : DocumentStore) : DocumentStore :=
  mkStore
    (map (fun doc => if String.eqb (id doc) id0 then merge doc updates else doc)
         (documents s))
    (if currentDocumentIs id0 s
     then option_map (fun d => merge d updates) (currentDocument s)
     else currentDocument s)
    (currentSummary s) (processingStatus s) (isLoading s) (error s).

Definition removeDocument (id0 : string) (s : DocumentStore) : DocumentStore :=
  mkStore
    (filter (fun doc => negb (String.eqb (id doc) id0)) (documents s))
    (if currentDocumentIs id0 s then None else currentDocument s)
    (if currentSummaryOf id0 s then None else currentSummary s)
    (processingStatus s) (isLoading s) (error s).



Definition setProcessingStatus (p : option ProcessingStatus) (s : DocumentStore)
  : DocumentStore :=
  mkStore (documents s) (currentDocument s) (currentSummary s) p
          (isLoading s) (error s).


Definition setError (e : option string) (s : DocumentStore) : DocumentStore :=
  mkStore (documents s) (currentDocument s) (currentSummary s)
          (processingStatus s) (isLoading s) e.

Definition clearError (s : DocumentStore) : DocumentStore := setError None s.

(** The argument [{ status: st }] of [updateDocument]. *)
Definition statusUpdate (st : DocStatus) : PartialDocument :=
  mkPartial None None None None None (Some st) None None None None.

(** What [updateDocument id0 updates] makes of one document. *)
Definition updated (id0 : string) (updates : PartialDocument) (d : Document)
  : Document :=
  if String.eqb (id d) id0 then merge d updates else d.

(** ** Asynchronous calls and notices *)

(** What a [catch] clause receives: an [Error] object with its message,
    or any other thrown value. *)
Inductive Thrown := ThrownError (msg : string) | ThrownOther.

(** [error instanceof Error ? error.message : fallback] *)
Definition thrownMessage (fallback : string) (t : Thrown) : string :=
  match t with ThrownError m => m | ThrownOther => fallback end.

(** How an awaited promise settles. *)
Inductive Settled (A : Type) := Resolved (a : A) | Rejected (t : Thrown).
Arguments Resolved {A} a.
Arguments Rejected {A} t.

Definition isResolved {A} (o : Settled A) : bool :=
  match o with Resolved _ => true | Rejected _ => false end.

(** [toast.error(msg)] and [toast.success(msg)], in the order issued. *)
Inductive Toast := ToastError (msg : string) | ToastSuccess (msg : string).

(** ** The upload pipeline ([DocumentUpload.onDrop]) *)

(** A browser [File].  [u.file === upload.file] compares object
    identity, which [fileRef] stands for. *)
Record File := mkFile {
  fileRef : nat;
  name : string;
  size : Z;
  type : string
}.

Definition sameFile (a b : File) : bool := Nat.eqb (fileRef a) (fileRef b).

(** The component's [UploadProgress]; its status literals are those of
    [Document.status]. *)
Record UploadProgress := mkUpload {
  file : File;
  progress : Z;
  ustatus : DocStatus;
  uerror : option string
}.

Definition maxFileSize : Z := 50 * 1024 * 1024.

(** The body of the [filter] callback of [onDrop]: the notice a file is
    rejected with, or [None] when the callback returns [true]. *)
Definition rejection (isValidPDF : File -> bool) (f : File) : option Toast :=
  if negb (isValidPDF f) then
    Some (ToastError (name f ++ " is not a valid PDF file")%string)
  else if maxFileSize <? size f then
    Some (ToastError (name f ++ " is too large (max 50MB)")%string)
  else None.

Definition accepted (isValidPDF : File -> bool) (f : File) : bool :=
  match rejection isValidPDF f with None => true | Some _ => false end.

Definition validFiles (isValidPDF : File -> bool) (acceptedFiles : list File)
  : list File :=
  filter (accepted isValidPDF) acceptedFiles.

Definition rejections (isValidPDF : File -> bool) (acceptedFiles : list File)
  : list Toast :=
  flat_map (fun f => match rejection isValidPDF f with
                     | Some t => [t] | None => [] end) acceptedFiles.

Definition newUpload (f : File) : UploadProgress := mkUpload f 0 Uploading None.

(** The callbacks handed to [setTimeout]. *)
Inductive TimerCb := MarkCompleted (f : File) | RemoveUpload (f : File).

Definition timerFile (cb : TimerCb) : File :=
  match cb with MarkCompleted f | RemoveUpload f => f end.

(** A pending timer: the instant it is due (ms) and its callback. *)
Definition Timer : Type := Z * TimerCb.

(** A suspended [onDrop] invocation: the [newUploads] array its [for]
    loop walks and the index of the element whose upload is awaited. *)
Record Batch := mkBatch {
  newUploads : list UploadProgress;
  pos : nat
}.

Definition inFlight (b : Batch) : option UploadProgress :=
  nth_error (newUploads b) (pos b).

(** What the API client sees of the uploads, with the instant of each
    event. *)
Inductive ApiEvent := UploadCalled (f : File) | UploadSettled (f : File) (ok : bool).

(** A mounted [DocumentUpload] in its environment: the clock (ms), the
    [uploads] state, the store, the notices shown, the pending timers,
    the [onDrop] invocations started so far and the API log. *)
Record Uploader := mkUploader {
  now : Z;
  uploads : list UploadProgress;
  store : DocumentStore;
  toasts : list Toast;
  timers : list Timer;
  running : list Batch;
  apiLog : list (Z * ApiEvent)
}.

(** The component as mounted at instant [t0] over the store [st]. *)
Definition mounted (t0 : Z) (st : DocumentStore) : Uploader :=
  mkUploader t0 [] st [] [] [] [].

(** [prev.map(u => u.file === f ? g(u) : u)] *)
Definition mapFile (f : File) (g : UploadProgress -> UploadProgress)
  (prev : list UploadProgress) : list UploadProgress :=
  map (fun u => if sameFile (file u) f then g u else u) prev.

(** [{ ...u, progress }] *)
Definition setProgress (p : Z) (u : UploadProgress) : UploadProgress :=
  mkUpload (file u) p (ustatus u) (uerror u).

(** [{ ...u, status: 'processing', progress: 100 }] *)
Definition toProcessing (u : UploadProgress) : UploadProgress :=
  mkUpload (file u) 100 Processing (uerror u).

(** [{ ...u, status: 'completed' }] *)
Definition toCompleted (u : UploadProgress) : UploadProgress :=
  mkUpload (file u) (progress u) Completed (uerror u).

(** [{ ...u, status: 'error', error: m }] *)
Definition toError (m : string) (u : UploadProgress) : UploadProgress :=
  mkUpload (file u) (progress u) Errored (Some m).

(** [uploadDocument(upload.file, ...)] is called: the call is logged. *)
Definition callUpload (f : File) (s : Uploader) : Uploader :=
  mkUploader (now s) (uploads s) (store s) (toasts s) (timers s) (running s)
             (apiLog s ++ [(now s, UploadCalled f)]).

(** [onDrop] up to its first [await]. *)
Definition onDrop (isValidPDF : File -> bool) (acceptedFiles : list File)
  (s : Uploader) : Uploader :=
  let valid := validFiles isValidPDF acceptedFiles in
  let noticed := toasts s ++ rejections isValidPDF acceptedFiles in
  match valid with
  | [] => mkUploader (now s) (uploads s) (store s) noticed (timers s)
                     (running s) (apiLog s)
  | f0 :: _ =>
      let fresh := map newUpload valid in
      callUpload f0
        (mkUploader (now s) (uploads s ++ fresh) (store s) noticed (timers s)
                    (running s ++ [mkBatch fresh 0]) (apiLog s))
  end.

(** The [try] block after the awaited upload resolved with [doc]. *)
Definition uploadResolved (f : File) (doc : Document) (s : Uploader) : Uploader :=
  mkUploader (now s)
             (mapFile f toProcessing (uploads s))
             (addDocument doc (store s))
             (toasts s ++ [ToastSuccess (name f ++ " uploaded successfully")%string])
             (timers s ++ [(now s + 1000, MarkCompleted f)])
             (running s) (apiLog s).

(** The [catch] block. *)
Definition uploadRejected (f : File) (t : Thrown) (s : Uploader) : Uploader :=
  let m := thrownMessage "Upload failed" t in
  mkUploader (now s)
             (mapFile f (toError m) (uploads s))
             (setError (Some m) (store s))
             (toasts s ++ [ToastError ("Failed to upload " ++ name f)%string])
             (timers s) (running s) (apiLog s).

(** [l] with [x] at index [n]; [l] itself when it has no such index. *)
Fixpoint replaceNth {A} (n : nat) (x : A) (l : list A) : list A :=
  match l, n with
  | [], _ => []
  | _ :: l', O => x :: l'
  | y :: l', S n' => y :: replaceNth n' x l'
  end.

(** The loop of batch [b] moves to its next element and, when there is
    one, calls the API for it. *)
Definition nextIteration (b : nat) (bt : Batch) (s : Uploader) : Uploader :=
  let bt' := mkBatch (newUploads bt) (S (pos bt)) in
  let s' := mkUploader (now s) (uploads s) (store s) (toasts s) (timers s)
                       (replaceNth b bt' (running s)) (apiLog s) in
  match inFlight bt' with
  | Some next => callUpload (file next) s'
  | None => s'
  end.

(** The awaited promise settles: the API log records it. *)
Definition logSettled (f : File) (ok : bool) (s : Uploader) : Uploader :=
  mkUploader (now s) (uploads s) (store s) (toasts s) (timers s) (running s)
             (apiLog s ++ [(now s, UploadSettled f ok)]).

(** The first pending timer that is due, and the timers left. *)
Fixpoint takeDue (t : Z) (ts : list Timer) : option (TimerCb * list Timer) :=
  match ts with
  | [] => None
  | (due, cb) :: ts' =>
      if due <=? t then Some (cb, ts')
      else match takeDue t ts' with
           | Some (cb', rest) => Some (cb', (due, cb) :: rest)
           | None => None
           end
  end.

(** The two [setTimeout] callbacks: the outer one marks the entries of
    the file completed and sets the inner one, which drops them. *)
Definition runTimer (cb : TimerCb) (s : Uploader) : Uploader :=
  match cb with
  | MarkCompleted f =>
      mkUploader (now s) (mapFile f toCompleted (uploads s)) (store s)
                 (toasts s) (timers s ++ [(now s + 3000, RemoveUpload f)])
                 (running s) (apiLog s)
  | RemoveUpload f =>
      mkUploader (now s)
                 (filter (fun u => negb (sameFile (file u) f)) (uploads s))
                 (store s) (toasts s) (timers s) (running s) (apiLog s)
  end.

(** What can happen to a mounted [DocumentUpload]. *)
Inductive Event :=
| Drop (acceptedFiles : list File)
| Progress (b : nat) (p : Z)
| Settle (b : nat) (o : Settled Document)
| Fire
| Advance (t : Z).

(** One turn of the event loop; [None] when the event cannot happen in
    [s].  The clock is virtual: handlers take no time, a timer runs at
    the instant it is due, and time does not pass a pending timer. *)
Definition step (isValidPDF : File -> bool) (e : Event) (s : Uploader)
  : option Uploader :=
  match e with
  | Drop acceptedFiles => Some (onDrop isValidPDF acceptedFiles s)
  | Progress b p =>
      match nth_error (running s) b with
      | Some bt =>
          match inFlight bt with
          | Some upload =>
              Some (mkUploader (now s)
                               (mapFile (file upload) (setProgress p) (uploads s))
                               (store s) (toasts s) (timers s) (running s)
                               (apiLog s))
          | None => None
          end
      | None => None
      end
  | Settle b o =>
      match nth_error (running s) b with
      | Some bt =>
          match inFlight bt with
          | Some upload =>
              let f := file upload in
              let s1 := logSettled f (isResolved o) s in
              let s2 := match o with
                        | Resolved doc => uploadResolved f doc s1
                        | Rejected t => uploadRejected f t s1
                        end in
              Some (nextIteration b bt s2)
          | None => None
          end
      | None => None
      end
  | Fire =>
      match takeDue (now s) (timers s) with
      | Some (cb, rest) =>
          Some (runTimer cb
                  (mkUploader (now s) (uploads s) (store s) (toasts s) rest
                              (running s) (apiLog s)))
      | None => None
      end
  | Advance t =>
      if (now s <=? t) && forallb (fun tm => t <=? fst tm) (timers s)
      then Some (mkUploader t (uploads s) (store s) (toasts s) (timers s)
                            (running s) (apiLog s))
      else None
  end.

Fixpoint run (isValidPDF : File -> bool) (es : list Event) (s : Uploader)
  : option Uploader :=
  match es with
  | [] => Some s
  | e :: es' =>
      match step isValidPDF e s with
      | Some s' => run isValidPDF es' s'
      | None => None
      end
  end.

(** ** Pages and cards around the store *)

(** The store together with the notices shown so far. *)
Record Page := mkPage {
  pg_store : DocumentStore;
  pg_toasts : list Toast
}.

Definition onStore (f : DocumentStore -> DocumentStore) (p : Page) : Page :=
  mkPage (f (pg_store p)) (pg_toasts p).

Definition notify (t : Toast) (p : Page) : Page :=
  mkPage (pg_store p) (pg_toasts p ++ [t]).







(** A [DocumentCard]: the store and notices, its [isDeleting] flag and
    the identifiers [deleteDocument] was called with. *)
Record Card := mkCard {
  card_page : Page;
  isDeleting : bool;
  deleteCalls : list string
}.

(** [handleDelete] up to its [await]; [confirmed] is the answer to the
    [confirm] dialog.  The result says whether the call was issued. *)
Definition handleDelete_begin (confirmed : bool) (document : Document) (c : Card)
  : Card * bool :=
  if negb confirmed then (c, false)
  else (mkCard (card_page c) true (deleteCalls c ++ [id document]), true).

(** [handleDelete] once [deleteDocument] has settled. *)
Definition handleDelete_settle (document : Document) (o : Settled unit) (c : Card)
  : Card :=
  let p :=
    match o with
    | Resolved _ =>
        notify (ToastSuccess "Document deleted successfully")
          (onStore (removeDocument (id document)) (card_page c))
    | Rejected _ => notify (ToastError "Failed to delete document") (card_page c)
    end in
  mkCard p false (deleteCalls c).

Definition handleDelete (confirmed : bool) (document : Document)
  (o : Settled unit) (c : Card) : Card :=
  match handleDelete_begin confirmed document c with
  | (c', true) => handleDelete_settle document o c'
  | (c', false) => c'
  end.

(** ** The list view ([HomePage.filteredAndSortedDocuments]) *)

Inductive SortBy := Recent | Name | Size.
Inductive FilterBy := FilterAll | FilterCompleted | FilterProcessing | FilterError.

(** [doc.status !== filterBy] for a [filterBy] other than ['all']. *)
Definition statusIs (fb : FilterBy) (st : DocStatus) : bool :=
  match fb, st with
  | FilterCompleted, Completed => true
  | FilterProcessing, Processing => true
  | FilterError, Errored => true
  | _, _ => false
  end.

(** [s.includes(sub)] *)
Fixpoint includes (s sub : string) : bool :=
  if String.prefix sub s then true
  else match s with
       | EmptyString => false
       | String _ s' => includes s' sub
       end.

(** A string is truthy when it is not empty. *)
Definition truthy (s : string) : bool :=
  match s with EmptyString => false | _ => true end.

(** The [filter] callback; [toLowerCase] is the host's. *)
Definition keeps (toLowerCase : string -> string) (filterBy : FilterBy)
  (searchQuery : string) (doc : Document) : bool :=
  if match filterBy with FilterAll => false | _ => negb (statusIs filterBy (status doc)) end
  then false
  else if truthy searchQuery
          && negb (includes (toLowerCase (originalName doc)) (toLowerCase searchQuery))
  then false
  else true.

(** The [sort] callback.  [getTime s] is [new Date(s).getTime()], [None]
    for an invalid date, whose [NaN] the sort reads as [+0];
    [localeCompare] is the host's collation. *)
Definition compareDocs (getTime : string -> option Z)
  (localeCompare : string -> string -> Z) (sortBy : SortBy) (a b : Document) : Z :=
  match sortBy with
  | Recent =>
      match getTime (uploadedAt b), getTime (uploadedAt a) with
      | Some tb, Some ta => tb - ta
      | _, _ => 0
      end
  | Name => localeCompare (originalName a) (originalName b)
  | Size => fileSize b - fileSize a
  end.

(** [Array.prototype.sort] is stable: [x] goes after [y] only when the
    comparator says [x > y].  For a consistent comparator every stable
    sort returns this list. *)
Fixpoint insertSorted {A} (cmp : A -> A -> Z) (x : A) (l : list A) : list A :=
  match l with
  | [] => [x]
  | y :: l' => if 0 <? cmp x y then y :: insertSorted cmp x l' else x :: l
  end.

Fixpoint arraySort {A} (cmp : A -> A -> Z) (l : list A) : list A :=
  match l with
  | [] => []
  | x :: l' => insertSorted cmp x (arraySort cmp l')
  end.

Definition filteredAndSortedDocuments (toLowerCase : string -> string)
  (getTime : string -> option Z) (localeCompare : string -> string -> Z)
  (filterBy : FilterBy) (searchQuery : string) (sortBy : SortBy)
  (documents : list Document) : list Document :=
  arraySort (compareDocs getTime localeCompare sortBy)
            (filter (keeps toLowerCase filterBy searchQuery) documents).

(** ** A concrete host

    One instance of what the browser and [lib/utils] provide, used where
    a property is exercised on concrete data: ISO date-only strings,
    code-unit collation, ASCII lower-casing and a MIME test. *)
Module Host.

Definition digit (c : ascii) : option Z :=
  let n := Z.of_N (N_of_ascii c) in
  if (48 <=? n) && (n <=? 57) then Some (n - 48) else None.

Fixpoint digits (acc : Z) (s : string) : option Z :=
  match s with
  | EmptyString => Some acc
  | String c s' =>
      match digit c with
      | Some d => digits (10 * acc + d) s'
      | None => None
      end
  end.

(** Days from 1970-01-01 to the civil date [y]-[m]-[d]. *)
Definition daysFromCivil (y m d : Z) : Z :=
  let y' := if m <=? 2 then y - 1 else y in
  let era := y' / 400 in
  let yoe := y' - era * 400 in
  let mp := (m + 9) mod 12 in
  let doy := (153 * mp + 2) / 5 + d - 1 in
  let doe := yoe * 365 + yoe / 4 - yoe / 100 + doy in
  era * 146097 + doe - 719468.

(** [new Date("YYYY-MM-DD").getTime()]: midnight UTC in milliseconds. *)
Definition getTime (s : string) : option Z :=
  if negb (Nat.eqb (String.length s) 10) then None
  else if negb (String.eqb (substring 4 1 s) "-" && String.eqb (substring 7 1 s) "-")
  then None
  else
    match digits 0 (substring 0 4 s), digits 0 (substring 5 2 s),
          digits 0 (substring 8 2 s) with
    | Some y, Some m, Some d =>
        if (1 <=? m) && (m <=? 12) && (1 <=? d) && (d <=? 31)
        then Some (daysFromCivil y m d * 86400000)
        else None
    | _, _, _ => None
    end.

(** Collation by code units. *)
Fixpoint localeCompare (a b : string) : Z :=
  match a, b with
  | EmptyString, EmptyString => 0
  | EmptyString, String _ _ => -1
  | String _ _, EmptyString => 1
  | String x a', String y b' =>
      if Ascii.eqb x y then localeCompare a' b'
      else Z.of_N (N_of_ascii x) - Z.of_N (N_of_ascii y)
  end.

Definition lowerAscii (c : ascii) : ascii :=
  let n := N_of_ascii c in
  if (65 <=? n)%N && (n <=? 90)%N then ascii_of_N (n + 32) else c.

Fixpoint toLowerCase (s : string) : string :=
  match s with
  | EmptyString => EmptyString
  | String c s' => String (lowerAscii c) (toLowerCase s')
  end.

Definition isValidPDF (f : File) : bool := String.eqb (type f) "application/pdf".

End Host.

(** ** Observing a run of the upload pipeline *)

(** The files handed to [onDrop] during a run, in order. *)
Definition dropped (es : list Event) : list File :=
  flat_map (fun e => match e with Drop fs => fs | _ => [] end) es.

Definition batchFiles (bt : Batch) : list File := map file (newUploads bt).

(** The files of all the batches ever started. *)
Definition allFiles (s : Uploader) : list File :=
  flat_map batchFiles (running s).

Definition eventFile (ev : ApiEvent) : File :=
  match ev with UploadCalled f | UploadSettled f _ => f end.

(** Instants at which the upload of the file object [r] was called. *)
Definition callsOf (r : nat) (log : list (Z * ApiEvent)) : list Z :=
  flat_map (fun e => match snd e with
                     | UploadCalled f =>
                         if Nat.eqb (fileRef f) r then [fst e] else []
                     | UploadSettled _ _ => []
                     end) log.

(** Instants at which it settled, and whether it resolved. *)
Definition settlesOf (r : nat) (log : list (Z * ApiEvent)) : list (Z * bool) :=
  flat_map (fun e => match snd e with
                     | UploadSettled f ok =>
                         if Nat.eqb (fileRef f) r then [(fst e, ok)] else []
                     | UploadCalled _ => []
                     end) log.

(** The list entries, and the pending timers, of the file object [r]. *)
Definition entriesOf (r : nat) (ups : list UploadProgress) : list UploadProgress :=
  filter (fun u => Nat.eqb (fileRef (file u)) r) ups.

Definition timersOf (r : nat) (ts : list Timer) : list Timer :=
  filter (fun tm => Nat.eqb (fileRef (timerFile (snd tm))) r) ts.

(** Where one file object stands, from what the API saw of it: its
    entries, its timers and the clock. *)
Definition phaseOf (settles : list (Z * bool)) (entries : list UploadProgress)
  (tms : list Timer) (nw : Z) : Prop :=
  match settles with
  | [] =>
      entries <> [] /\ Forall (fun u => ustatus u = Uploading) entries /\ tms = []
  | [(t, false)] =>
      entries <> [] /\ Forall (fun u => ustatus u = Errored) entries /\ tms = []
  | [(t, true)] =>
      (entries <> [] /\ Forall (fun u => ustatus u = Processing) entries /\
       nw <= t + 1000 /\ exists f, tms = [(t + 1000, MarkCompleted f)]) \/
      (entries <> [] /\ Forall (fun u => ustatus u = Completed) entries /\
       t + 1000 <= nw <= t + 4000 /\ exists f, tms = [(t + 4000, RemoveUpload f)]) \/
      (entries = [] /\ t + 4000 <= nw /\ tms = [])
  | _ => False
  end.

Definition phase (r : nat) (s : Uploader) : Prop :=
  phaseOf (settlesOf r (apiLog s)) (entriesOf r (uploads s))
          (timersOf r (timers s)) (now s).

(** What holds of the pipeline after the events [es] since mounting. *)
Record Invariant (isValidPDF : File -> bool) (es : list Event) (s : Uploader)
  : Prop := mkInvariant {
  inv_files : allFiles s = filter (accepted isValidPDF) (dropped es);
  inv_batches :
    forall fs, In (Drop fs) es ->
      validFiles isValidPDF fs = [] \/
      exists bt, In bt (running s) /\ batchFiles bt = validFiles isValidPDF fs;
  inv_log :
    forall t ev, In (t, ev) (apiLog s) -> In (eventFile ev) (allFiles s);
  inv_uploads :
    forall u, In u (uploads s) -> In (file u) (allFiles s);
  inv_timers :
    forall due cb, In (due, cb) (timers s) -> In (timerFile cb) (allFiles s);
  inv_loop :
    forall b bt k f,
      nth_error (running s) b = Some bt ->
      nth_error (batchFiles bt) k = Some f ->
      (callsOf (fileRef f) (apiLog s) <> [] <-> (k <= pos bt)%nat) /\
      (settlesOf (fileRef f) (apiLog s) <> [] <-> (k < pos bt)%nat);
  inv_phase :
    forall f, In f (allFiles s) -> phase (fileRef f) s
}.

(** ** The shape of a step *)

(** What settling the upload in flight of batch [b] does to the state. *)
Definition settleTimers (o : Settled Document) (f : File) (t : Z) : list Timer :=
  match o with Resolved _ => [(t + 1000, MarkCompleted f)] | Rejected _ => [] end.

Definition settleEntry (o : Settled Document) : UploadProgress -> UploadProgress :=
  match o with
  | Resolved _ => toProcessing
  | Rejected t => toError (thrownMessage "Upload failed" t)
  end.

Definition nextCall (bt : Batch) (t : Z) : list (Z * ApiEvent) :=
  match nth_error (newUploads bt) (S (pos bt)) with
  | Some next => [(t, UploadCalled (file next))]
  | None => []
  end.

(** What a drop adds to the loops and to the log. *)
Definition dropBatch (valid : list File) : list Batch :=
  match valid with [] => [] | _ :: _ => [mkBatch (map newUpload valid) 0] end.

Definition dropCall (valid : list File) (t : Z) : list (Z * ApiEvent) :=
  match valid with [] => [] | f0 :: _ => [(t, UploadCalled f0)] end.

(** ** What the user sees of one file *)

(** The list shows the file [f], with status [st] on each of its
    entries. *)
Definition shown (f : File) (st : DocStatus) (s : Uploader) : Prop :=
  (exists u, In u (uploads s) /\ sameFile (file u) f = true) /\
  (forall u, In u (uploads s) -> sameFile (file u) f = true -> ustatus u = st).

(** The list has no entry of the file [f]. *)
Definition hidden (f : File) (s : Uploader) : Prop :=
  forall u, In u (uploads s) -> sameFile (file u) f = false.

(** Events of the clock alone. *)
Definition isTimerEvent (e : Event) : Prop :=
  match e with Fire | Advance _ => True | _ => False end.

(** A [MarkCompleted] timer leaves a [RemoveUpload] timer behind. *)
Definition timerWeight (cb : TimerCb) : nat :=
  match cb with MarkCompleted _ => 2 | RemoveUpload _ => 1 end.

Definition pendingWork (ts : list Timer) : nat :=
  list_sum (map (fun tm => timerWeight (snd tm)) ts).

(** The earliest of [d] and the instants the timers are due. *)
Definition minDue (d : Z) (ts : list Timer) : Z :=
  fold_right (fun tm m => Z.min (fst tm) m) d ts.

(** ** Sample data *)
Module Sample.

Definition pdf (ref : nat) (nm : string) (sz : Z) : File :=
  mkFile ref nm sz "application/pdf".

Definition fileA : File := pdf 1 "a.pdf" 1000.
Definition fileB : File := pdf 2 "b.pdf" 2000.
Definition fileC : File := pdf 3 "c.pdf" (50 * 1024 * 1024).
Definition fileBig : File := pdf 4 "big.pdf" (50 * 1024 * 1024 + 1).

Definition doc (i nm date : string) (st : DocStatus) : Document :=
  mkDocument i (i ++ ".pdf")%string nm 1000 date st None None None None.

Definition docA : Document := doc "1" "a.pdf" "2024-01-02" Completed.
Definition docB : Document := doc "2" "b.pdf" "2024-01-01" Processing.

Definition networkError : Thrown := ThrownError "Network Error".

(** A drop of three files, one of them too large; the first upload
    succeeds, the second fails 2.5 s later; 10 s after the drop both
    timers of the first have run. *)
Definition session : list Event :=
  [Drop [fileA; fileBig; fileB];
   Settle 0 (Resolved docA);
   Advance 1000; Fire;
   Advance 2500; Settle 0 (Rejected networkError);
   Advance 4000; Fire;
   Advance 10000].

(** The state that session ends in. *)
Definition sessionEnd : Uploader :=
  Eval vm_compute in
    match run Host.isValidPDF session (mounted 0 initialStore) with
    | Some s => s
    | None => mounted 0 initialStore
    end.

End Sample.

(** ** More of the store's callers *)

(** [{ ...u1, ...u2 }] on two partial documents. *)
Definition spreadKey {A} (k1 k2 : option A) : option A :=
  match k2 with Some v => Some v | None => k1 end.

Definition combine (u1 u2 : PartialDocument) : PartialDocument :=
  {| p_id := spreadKey (p_id u1) (p_id u2);
     p_filename := spreadKey (p_filename u1) (p_filename u2);
     p_originalName := spreadKey (p_originalName u1) (p_originalName u2);
     p_fileSize := spreadKey (p_fileSize u1) (p_fileSize u2);
     p_uploadedAt := spreadKey (p_uploadedAt u1) (p_uploadedAt u2);
     p_status := spreadKey (p_status u1) (p_status u2);
     p_summary := spreadKey (p_summary u1) (p_summary u2);
     p_highlights := spreadKey (p_highlights u1) (p_highlights u2);
     p_pageCount := spreadKey (p_pageCount u1) (p_pageCount u2);
     p_textContent := spreadKey (p_textContent u1) (p_textContent u2) |}.

(** The empty object [{}] as a partial document. *)
Definition noFields : PartialDocument :=
  mkPartial None None None None None None None None None None.

(** [error ? ... : ...] and [error || ...] on the store's [error]:
    [null] and the empty string are falsy. *)
Definition errorShown (st : DocumentStore) : bool :=
  match error st with Some m => truthy m | None => false end.

(** [HomePage]'s [stats] object. *)
Record Stats := mkStats {
  stats_total : nat;
  stats_completed : nat;
  stats_processing : nat;
  stats_withSummary : nat
}.

Definition hasSummary (d : Document) : bool :=
  match summary d with Some _ => true | None => false end.

Definition stats (documents : list Document) : Stats :=
  mkStats (List.length documents)
          (List.length (filter (fun d => DocStatus_eqb (status d) Completed) documents))
          (List.length (filter (fun d => DocStatus_eqb (status d) Processing) documents))
          (List.length (filter hasSummary documents)).

(** What [HomePage] renders below the upload zone. *)
Inductive DocumentsSection :=
| NoSection
| LoadingSpinner
| LoadFailed
| NothingToShow (heading hint : string)
| Cards (view : list Document).

Definition isAll (filterBy : FilterBy) : bool :=
  match filterBy with FilterAll => true | _ => false end.

(** The JSX from [documents.length > 0 &&] on. *)
Definition documentsSection (toLowerCase : string -> string)
  (getTime : string -> option Z) (localeCompare : string -> string -> Z)
  (st : DocumentStore) (filterBy : FilterBy) (searchQuery : string)
  (sortBy : SortBy) : DocumentsSection :=
  match documents st with
  | [] => NoSection
  | _ :: _ =>
      if isLoading st then LoadingSpinner
      else if errorShown st then LoadFailed
      else
        match filteredAndSortedDocuments toLowerCase getTime localeCompare
                filterBy searchQuery sortBy (documents st) with
        | [] =>
            if truthy searchQuery || negb (isAll filterBy)
            then NothingToShow "No documents match your criteria"
                               "Try adjusting your search or filters"
            else NothingToShow "No documents yet"
                               "Upload your first PDF document to get started"
        | d :: view => Cards (d :: view)
        end
  end.

(** The status a [filterBy] other than ['all'] selects. *)
Definition selected (filterBy : FilterBy) : option DocStatus :=
  match filterBy with
  | FilterAll => None
  | FilterCompleted => Some Completed
  | FilterProcessing => Some Processing
  | FilterError => Some Errored
  end.

(** ** The document viewer ([DocumentViewer]) *)





(** ** The navigation bar ([Layout]) *)

(** The [href]s of [navigation], in order. *)
Definition navigation : list string := ["/"; "/search"; "/insights"].

(** [isActive(path)] at [location.pathname]. *)
Definition isActive (pathname path : string) : bool :=
  if String.eqb path "/" then String.eqb pathname "/"
  else String.prefix path pathname.

(** ** More of what a run shows *)

(** The documents the uploads of a run resolved with, in order. *)
Definition resolvedDocs (es : list Event) : list Document :=
  flat_map (fun e => match e with
                     | Settle _ (Resolved doc) => [doc]
                     | _ => []
                     end) es.

(** What the last rejected upload of a run threw. *)
Definition lastRejected (es : list Event) : option Thrown :=
  fold_left (fun acc e => match e with
                          | Settle _ (Rejected t) => Some t
                          | _ => acc
                          end) es None.

Definition isDrop (e : Event) : bool :=
  match e with Drop _ => true | _ => false end.

Definition isCall (ev : Z * ApiEvent) : bool :=
  match snd ev with UploadCalled _ => true | UploadSettled _ _ => false end.

(** Uploads called and not settled yet. *)
Definition outstanding (s : Uploader) : nat :=
  (List.length (filter isCall (apiLog s)) -
   List.length (filter (fun ev => negb (isCall ev)) (apiLog s)))%nat.

(** The loop of the batch still awaits an upload. *)
Definition awaiting (bt : Batch) : bool :=
  match inFlight bt with Some _ => true | None => false end.

(** The calls logged exceed the settlements by the loops that await. *)
Definition balanced (s : Uploader) : Prop :=
  List.length (filter isCall (apiLog s)) =
  (List.length (filter (fun ev => negb (isCall ev)) (apiLog s)) +
   List.length (filter awaiting (running s)))%nat.

(** The moves an entry's status makes. *)
Definition forward (a b : DocStatus) : bool :=
  match a, b with
  | Uploading, Processing | Uploading, Errored | Processing, Completed => true
  | _, _ => DocStatus_eqb a b
  end.

(** The session of [Sample] while the upload of b.pdf is awaited, and
    once it has been rejected. *)
Module Scene.
Definition awaitingB : Uploader :=
  Eval vm_compute in
    match run Host.isValidPDF (firstn 5 Sample.session) (mounted 0 initialStore) with
    | Some s => s
    | None => mounted 0 initialStore
    end.

Definition rejectedB : Uploader :=
  Eval vm_compute in
    match step Host.isValidPDF (Settle 0 (Rejected Sample.networkError)) awaitingB with
    | Some s => s
    | None => awaitingB
    end.
End Scene.

(** * Properties *)

(** ** The store *)

(** C1: [removeDocument id0] keeps exactly the documents whose id is not
    [id0], in their order; it clears [currentDocument] exactly when that
    document's id is [id0] and [currentSummary] exactly when that
    summary's [documentId] is [id0]; otherwise both are unchanged, as
    are the other fields. *)
Theorem removeDocument_clears_references (id0 : string) (s : DocumentStore) :
  (forall d, In d (documents (removeDocument id0 s)) <->
             In d (documents s) /\ id d <> id0) /\
  documents (removeDocument id0 s) =
    filter (fun d => negb (String.eqb (id d) id0)) (documents s) /\
  (forall d, currentDocument s = Some d ->
     (currentDocument (removeDocument id0 s) = None <-> id d = id0) /\
     (id d <> id0 -> currentDocument (removeDocument id0 s) = Some d)) /\
  (currentDocument s = None -> currentDocument (removeDocument id0 s) = None) /\
  (forall sm, currentSummary s = Some sm ->
     (currentSummary (removeDocument id0 s) = None <-> documentId sm = id0) /\
     (documentId sm <> id0 -> currentSummary (removeDocument id0 s) = Some sm)) /\
  (currentSummary s = None -> currentSummary (removeDocument id0 s) = None) /\
  processingStatus (removeDocument id0 s) = processingStatus s /\
  isLoading (removeDocument id0 s) = isLoading s /\
  error (removeDocument id0 s) = error s.
Proof.
  split; [|split; [reflexivity|]].
  { intros d. simpl. rewrite filter_In, negb_true_iff, String.eqb_neq. tauto. }
  split; [|split].
  { intros d Hd. unfold removeDocument, currentDocumentIs; simpl. rewrite Hd.
    destruct (String.eqb_spec (id d) id0) as [E|N].
    - split; [tauto | intros N; contradiction].
    - split; [split; [discriminate | tauto] | reflexivity]. }
  { intros Hd. unfold removeDocument, currentDocumentIs; simpl. now rewrite Hd. }
  split; [|split].
  { intros sm Hs. unfold removeDocument, currentSummaryOf; simpl. rewrite Hs.
    destruct (String.eqb_spec (documentId sm) id0) as [E|N].
    - split; [tauto | intros N; contradiction].
    - split; [split; [discriminate | tauto] | reflexivity]. }
  { intros Hs. unfold removeDocument, currentSummaryOf; simpl. now rewrite Hs. }
  repeat split.
Qed.

Lemma updated_documents id0 updates s :
  documents (updateDocument id0 updates s) =
  map (updated id0 updates) (documents s).
Proof. reflexivity. Qed.

Lemma updated_other id0 updates d : id d <> id0 -> updated id0 updates d = d.
Proof. unfold updated. intros N. apply String.eqb_neq in N. now rewrite N. Qed.

Lemma updated_match id0 updates d :
  id d = id0 -> updated id0 updates d = merge d updates.
Proof. unfold updated. intros E. apply String.eqb_eq in E. now rewrite E. Qed.



(** C10: [updateDocument] keeps the number of documents and their
    positions (position [i] holds the old document, merged when its id
    matched), keeps the sequence of ids unless [updates] carries an id,
    and leaves [currentSummary], [processingStatus], [isLoading] and
    [error] unchanged. *)
Theorem updateDocument_frame (id0 : string) (updates : PartialDocument)
  (s : DocumentStore) :
  List.length (documents (updateDocument id0 updates s)) =
    List.length (documents s) /\
  (forall i d, nth_error (documents s) i = Some d ->
     exists d', nth_error (documents (updateDocument id0 updates s)) i = Some d' /\
                (id d <> id0 -> d' = d) /\
                (id d = id0 -> d' = merge d updates)) /\
  (p_id updates = None ->
     map id (documents (updateDocument id0 updates s)) = map id (documents s)) /\
  currentSummary (updateDocument id0 updates s) = currentSummary s /\
  processingStatus (updateDocument id0 updates s) = processingStatus s /\
  isLoading (updateDocument id0 updates s) = isLoading s /\
  error (updateDocument id0 updates s) = error s.
Proof.
  split; [|split; [|split]].
  - rewrite updated_documents. apply length_map.
  - intros i d Hi. exists (updated id0 updates d). split; [|split].
    + rewrite updated_documents. now rewrite nth_error_map, Hi.
    + apply updated_other.
    + apply updated_match.
  - intros Hid. rewrite updated_documents, map_map. apply map_ext.
    intros d. unfold updated. destruct (String.eqb (id d) id0); [|reflexivity].
    simpl. now rewrite Hid.
  - repeat split.
Qed.

(** ** Deleting a document ([DocumentCard.handleDelete]) *)

Lemma handleDelete_rejected confirmed document t c :
  card_page (handleDelete confirmed document (Rejected t) c) =
  if confirmed
  then notify (ToastError "Failed to delete document") (card_page c)
  else card_page c.
Proof. unfold handleDelete, handleDelete_begin. now destruct confirmed. Qed.

(** C9: [handleDelete] leaves the store alone up to the [await] of
    [deleteDocument]; when the call fails the store is unchanged, so
    every document stays in the collection; [removeDocument] is applied,
    to the deleted document's id, exactly when the confirmed call has
    succeeded. *)
Theorem handleDelete_removes_after_success (document : Document) (c : Card) :
  (forall confirmed,
     pg_store (card_page (fst (handleDelete_begin confirmed document c))) =
     pg_store (card_page c)) /\
  deleteCalls (fst (handleDelete_begin true document c)) =
    deleteCalls c ++ [id document] /\
  (forall confirmed t,
     pg_store (card_page (handleDelete confirmed document (Rejected t) c)) =
     pg_store (card_page c)) /\
  (forall confirmed t d,
     In d (documents (pg_store (card_page c))) ->
     In d (documents
             (pg_store (card_page (handleDelete confirmed document (Rejected t) c))))) /\
  (forall u,
     pg_store (card_page (handleDelete true document (Resolved u) c)) =
     removeDocument (id document) (pg_store (card_page c))) /\
  (forall o, handleDelete false document o c = c).
Proof.
  split; [|split; [|split; [|split; [|split]]]].
  - intros []; reflexivity.
  - reflexivity.
  - intros confirmed t. rewrite handleDelete_rejected. now destruct confirmed.
  - intros confirmed t d Hd. rewrite handleDelete_rejected. now destruct confirmed.
  - reflexivity.
  - reflexivity.
Qed.

(** ** Who writes the store's [error] field *)

Lemma step_settle_inv isValidPDF b o s s' :
  step isValidPDF (Settle b o) s = Some s' ->
  exists bt upload,
    nth_error (running s) b = Some bt /\ inFlight bt = Some upload /\
    s' = nextIteration b bt
           (match o with
            | Resolved doc =>
                uploadResolved (file upload) doc
                  (logSettled (file upload) (isResolved o) s)
            | Rejected t =>
                uploadRejected (file upload) t
                  (logSettled (file upload) (isResolved o) s)
            end).
Proof.
  unfold step. destruct (nth_error (running s) b) as [bt|]; [|discriminate].
  destruct (inFlight bt) as [upload|] eqn:Hu; [|discriminate].
  intros E. injection E as <-. exists bt, upload.
  split; [reflexivity|]. split; [exact Hu|]. now destruct o.
Qed.

Lemma nextIteration_frame b bt s :
  now (nextIteration b bt s) = now s /\
  uploads (nextIteration b bt s) = uploads s /\
  store (nextIteration b bt s) = store s /\
  toasts (nextIteration b bt s) = toasts s /\
  timers (nextIteration b bt s) = timers s.
Proof.
  unfold nextIteration.
  destruct (inFlight _); repeat split.
Qed.

Lemma mapFile_In f g prev u' :
  In u' (mapFile f g prev) ->
  exists u, In u prev /\ u' = (if sameFile (file u) f then g u else u).
Proof.
  unfold mapFile. intros H. apply in_map_iff in H.
  destruct H as [u [E Hu]]. now exists u.
Qed.

(** What a rejected upload does besides marking its entry: it writes
    the store's [error] field. *)
Lemma upload_failure_writes_error isValidPDF b t s s' :
  step isValidPDF (Settle b (Rejected t)) s = Some s' ->
  error (store s') = Some (thrownMessage "Upload failed" t).
Proof.
  intros Hs. apply step_settle_inv in Hs.
  destruct Hs as [bt [upload [_ [_ ->]]]].
  destruct (nextIteration_frame b bt
              (uploadRejected (file upload) t
                 (logSettled (file upload) false s)))
    as [_ [_ [Es _]]].
  simpl isResolved. now rewrite Es.
Qed.



(** ** Validation on drop *)




Lemma onDrop_uploads isValidPDF fs s :
  uploads (onDrop isValidPDF fs s) =
  uploads s ++ map newUpload (validFiles isValidPDF fs).
Proof.
  unfold onDrop. destruct (validFiles isValidPDF fs); simpl.
  - now rewrite app_nil_r.
  - reflexivity.
Qed.








(** Three valid PDFs and one oversized file, on concrete data. *)
Example onDrop_three_of_four :
  let s := onDrop Host.isValidPDF
             [Sample.fileA; Sample.fileBig; Sample.fileB; Sample.fileC]
             (mounted 0 initialStore) in
  uploads s = [newUpload Sample.fileA; newUpload Sample.fileB;
               newUpload Sample.fileC] /\
  toasts s = [ToastError "big.pdf is too large (max 50MB)"] /\
  apiLog s = [(0, UploadCalled Sample.fileA)].
Proof. repeat split. Qed.

(** ** A successful upload *)

(** C6: when the awaited upload of batch [b] resolves with [doc], in the
    same turn every entry of the file in flight gets status
    ['processing'] and progress 100 (each old entry of that file is
    still there, so changed; the entries of other files are untouched),
    and [doc] is put in front of the store's collection, the rest of the
    store being unchanged. *)
Theorem upload_success_marks_processing_and_prepends
  (isValidPDF : File -> bool) (b : nat) (doc : Document) (s : Uploader)
  (bt : Batch) (upload : UploadProgress)
  (Hb : nth_error (running s) b = Some bt)
  (Hu : inFlight bt = Some upload) :
  exists s',
    step isValidPDF (Settle b (Resolved doc)) s = Some s' /\
    uploads s' = mapFile (file upload) toProcessing (uploads s) /\
    (forall u, In u (uploads s) -> sameFile (file u) (file upload) = true ->
               In (toProcessing u) (uploads s')) /\
    (forall u, In u (uploads s) -> sameFile (file u) (file upload) = false ->
               In u (uploads s')) /\
    (forall u', In u' (uploads s') ->
                sameFile (file u') (file upload) = true ->
                ustatus u' = Processing /\ progress u' = 100) /\
    documents (store s') = doc :: documents (store s) /\
    store s' = addDocument doc (store s) /\
    now s' = now s.
Proof.
  eexists. split.
  { simpl. rewrite Hb, Hu. reflexivity. }
  match goal with
  | |- context [nextIteration ?b ?bt ?x] =>
      destruct (nextIteration_frame b bt x) as [En [Eu [Es _]]]
  end.
  rewrite Eu, Es, En. simpl.
  split; [reflexivity|]. split; [|split; [|split]].
  - intros u Hin Hsame. unfold mapFile. apply in_map_iff.
    exists u. now rewrite Hsame.
  - intros u Hin Hsame. unfold mapFile. apply in_map_iff.
    exists u. now rewrite Hsame.
  - intros u' Hin Hsame. apply mapFile_In in Hin. destruct Hin as [u [_ ->]].
    destruct (sameFile (file u) (file upload)) eqn:E.
    + now split.
    + congruence.
  - repeat split.
Qed.

Lemma upload_success_marks_processing_and_prepends_witness :
  exists s',
    step Host.isValidPDF (Settle 0 (Resolved Sample.docA))
         (onDrop Host.isValidPDF [Sample.fileA; Sample.fileB]
                 (mounted 0 initialStore)) = Some s' /\
    map ustatus (uploads s') = [Processing; Uploading] /\
    map progress (uploads s') = [100; 0] /\
    documents (store s') = [Sample.docA].
Proof.
  destruct (@upload_success_marks_processing_and_prepends
              Host.isValidPDF 0%nat Sample.docA
              (onDrop Host.isValidPDF [Sample.fileA; Sample.fileB]
                      (mounted 0 initialStore))
              (mkBatch [newUpload Sample.fileA; newUpload Sample.fileB] 0)
              (newUpload Sample.fileA) eq_refl eq_refl)
    as [s' [Hs [Eu [_ [_ [_ [Ed _]]]]]]].
  exists s'. split; [exact Hs|]. rewrite Eu, Ed. repeat split.
Defined.

(** ** The list view *)

Section Sorting.
Variable A : Type.
Variable cmp : A -> A -> Z.

Lemma insertSorted_perm x l : Permutation (insertSorted cmp x l) (x :: l).
Proof.
  induction l as [|y l IH]; simpl.
  - reflexivity.
  - destruct (0 <? cmp x y).
    + rewrite IH. apply perm_swap.
    + reflexivity.
Qed.

Lemma arraySort_perm l : Permutation (arraySort cmp l) l.
Proof.
  induction l as [|x l IH]; simpl.
  - reflexivity.
  - rewrite insertSorted_perm. now constructor.
Qed.

(** The comparator is consistent on the elements satisfying [P]. *)
Variable P : A -> Prop.
Hypothesis cmp_total :
  forall a b, P a -> P b -> 0 < cmp a b -> cmp b a <= 0.
Hypothesis cmp_trans :
  forall a b c, P a -> P b -> P c ->
                cmp a b <= 0 -> cmp b c <= 0 -> cmp a c <= 0.

Let ordered (a b : A) : Prop := cmp a b <= 0.

Lemma insertSorted_sorted x l :
  P x -> Forall P l ->
  StronglySorted ordered l -> StronglySorted ordered (insertSorted cmp x l).
Proof.
  intros Px Pl Hs. induction l as [|y l IH]; simpl.
  - repeat constructor.
  - inversion Pl as [|? ? Py Pl']; subst.
    inversion Hs as [|? ? Hs' Hy]; subst.
    destruct (Z.ltb_spec 0 (cmp x y)) as [Hgt|Hle].
    + constructor; [now apply IH|].
      apply Forall_forall. intros z Hz.
      apply (Permutation_in _ (insertSorted_perm x l)) in Hz.
      destruct Hz as [<-|Hz].
      * now apply cmp_total.
      * rewrite Forall_forall in Hy. now apply Hy.
    + constructor; [exact Hs|].
      constructor; [exact Hle|].
      apply Forall_forall. intros z Hz.
      rewrite Forall_forall in Hy, Pl'.
      apply cmp_trans with y; auto. now apply Hy.
Qed.

Lemma arraySort_sorted l :
  Forall P l -> StronglySorted ordered (arraySort cmp l).
Proof.
  induction l as [|x l IH]; intros Pl; simpl.
  - constructor.
  - inversion Pl; subst. apply insertSorted_sorted; auto.
    apply Forall_forall. intros z Hz.
    apply (Permutation_in _ (arraySort_perm l)) in Hz.
    rewrite Forall_forall in H2. now apply H2.
Qed.
End Sorting.

Lemma view_perm toLowerCase getTime localeCompare filterBy q sortBy docs :
  Permutation
    (filteredAndSortedDocuments toLowerCase getTime localeCompare
                                filterBy q sortBy docs)
    (filter (keeps toLowerCase filterBy q) docs).
Proof. apply arraySort_perm. Qed.

Lemma keeps_completed toLowerCase d :
  keeps toLowerCase FilterCompleted "" d = true <-> status d = Completed.
Proof. unfold keeps. simpl. destruct (status d); simpl; split; congruence. Qed.

Lemma StronglySorted_impl {A} (R R' : A -> A -> Prop) (Q : A -> Prop) l :
  (forall a b, Q a -> Q b -> R a b -> R' a b) ->
  Forall Q l -> StronglySorted R l -> StronglySorted R' l.
Proof.
  intros HR HQ Hs. induction Hs as [|a l Hs IH Ha].
  - constructor.
  - inversion HQ; subst. constructor; [now apply IH|].
    rewrite Forall_forall in *. intros z Hz. apply HR; auto.
Qed.

Module HostFacts.

Lemma ascii_code_inj x y : N_of_ascii x = N_of_ascii y -> x = y.
Proof.
  intros E. rewrite <- (ascii_N_embedding x), <- (ascii_N_embedding y).
  now rewrite E.
Qed.

Lemma localeCompare_total a :
  forall b, 0 < Host.localeCompare a b -> Host.localeCompare b a <= 0.
Proof.
  induction a as [|x a IH]; intros [|y b]; simpl; try lia.
  rewrite (Ascii.eqb_sym y x).
  destruct (Ascii.eqb x y); [apply IH | lia].
Qed.

Lemma localeCompare_trans a :
  forall b c, Host.localeCompare a b <= 0 -> Host.localeCompare b c <= 0 ->
              Host.localeCompare a c <= 0.
Proof.
  induction a as [|x a IH]; intros [|y b] [|z c]; simpl; try lia.
  destruct (Ascii.eqb_spec x y) as [->|Nxy];
    destruct (Ascii.eqb_spec y z) as [->|Nyz].
  - apply IH.
  - intros _ H. exact H.
  - intros H _. destruct (Ascii.eqb_spec x z); [contradiction | exact H].
  - intros H1 H2.
    assert (N_of_ascii x <> N_of_ascii y)
      by (intros E; apply Nxy; now apply ascii_code_inj).
    assert (N_of_ascii y <> N_of_ascii z)
      by (intros E; apply Nyz; now apply ascii_code_inj).
    destruct (Ascii.eqb_spec x z) as [->|Nxz]; lia.
Qed.

End HostFacts.

Lemma view_recent_sorted toLowerCase getTime localeCompare filterBy q docs :
  (forall d, In d docs -> getTime (uploadedAt d) <> None) ->
  StronglySorted
    (fun a b => exists ta tb, getTime (uploadedAt a) = Some ta /\
                              getTime (uploadedAt b) = Some tb /\ tb <= ta)
    (filteredAndSortedDocuments toLowerCase getTime localeCompare
                                filterBy q Recent docs).
Proof.
  intros Hvalid. unfold filteredAndSortedDocuments.
  set (kept := filter (keeps toLowerCase filterBy q) docs).
  set (cmp := compareDocs getTime localeCompare Recent).
  set (P := fun d : Document => getTime (uploadedAt d) <> None).
  assert (HP : Forall P kept).
  { apply Forall_forall. intros d Hd. apply filter_In in Hd.
    apply Hvalid. tauto. }
  assert (HP' : Forall P (arraySort cmp kept)).
  { apply Forall_forall. intros d Hd.
    apply (Permutation_in _ (arraySort_perm cmp kept)) in Hd.
    rewrite Forall_forall in HP. now apply HP. }
  apply StronglySorted_impl with (R := fun a b => cmp a b <= 0) (Q := P);
    [|exact HP'|].
  - intros a b Pa Pb. unfold cmp, compareDocs, P in *.
    destruct (getTime (uploadedAt a)) as [ta|]; [|congruence].
    destruct (getTime (uploadedAt b)) as [tb|]; [|congruence].
    intros H. exists ta, tb. repeat split. lia.
  - apply arraySort_sorted with (P := P); [| |exact HP].
    + intros a b Pa Pb. unfold cmp, compareDocs, P in *.
      destruct (getTime (uploadedAt a)); [|congruence].
      destruct (getTime (uploadedAt b)); [|congruence]. lia.
    + intros a b c Pa Pb Pc. unfold cmp, compareDocs, P in *.
      destruct (getTime (uploadedAt a)); [|congruence].
      destruct (getTime (uploadedAt b)); [|congruence].
      destruct (getTime (uploadedAt c)); [|congruence]. lia.
Qed.

Lemma view_name_sorted toLowerCase getTime localeCompare filterBy q docs :
  (forall a b, 0 < localeCompare a b -> localeCompare b a <= 0) ->
  (forall a b c, localeCompare a b <= 0 -> localeCompare b c <= 0 ->
                 localeCompare a c <= 0) ->
  StronglySorted
    (fun a b => localeCompare (originalName a) (originalName b) <= 0)
    (filteredAndSortedDocuments toLowerCase getTime localeCompare
                                filterBy q Name docs).
Proof.
  intros Htot Htrans. unfold filteredAndSortedDocuments.
  apply arraySort_sorted with (P := fun _ => True).
  - intros a b _ _. apply Htot.
  - intros a b c _ _ _. apply Htrans.
  - apply Forall_forall. auto.
Qed.

Lemma view_pair_swapped toLowerCase getTime localeCompare sortBy d1 d2 :
  0 < compareDocs getTime localeCompare sortBy d1 d2 ->
  filteredAndSortedDocuments toLowerCase getTime localeCompare
                             FilterAll "" sortBy [d1; d2] = [d2; d1].
Proof.
  intros H. unfold filteredAndSortedDocuments. simpl.
  apply Z.ltb_lt in H. now rewrite H.
Qed.

Lemma view_pair_kept toLowerCase getTime localeCompare sortBy d1 d2 :
  compareDocs getTime localeCompare sortBy d1 d2 <= 0 ->
  filteredAndSortedDocuments toLowerCase getTime localeCompare
                             FilterAll "" sortBy [d1; d2] = [d1; d2].
Proof.
  intros H. unfold filteredAndSortedDocuments. simpl.
  apply Z.ltb_ge in H. now rewrite H.
Qed.

(** C8: the view is a rearrangement of the documents its filter keeps.
    Sorted by ['recent'] it is in descending order of upload time,
    provided every [uploadedAt] is a valid date, so of two documents the
    later one comes first whatever their order in the store (2024-01-02
    before 2024-01-01).  Sorted by ['name'] it is in ascending order of
    [originalName] for the host's collation, provided that collation is
    a consistent comparator, and of two documents the one whose name
    collates first comes first (a.pdf before b.pdf).  With the status
    filter ['completed'] and no search text it holds exactly the
    documents whose status is ['completed']. *)
Theorem view_sorts_and_filters
  (toLowerCase : string -> string) (getTime : string -> option Z)
  (localeCompare : string -> string -> Z) :
  let view := filteredAndSortedDocuments toLowerCase getTime localeCompare in
  (forall filterBy q sortBy docs,
     Permutation (view filterBy q sortBy docs)
                 (filter (keeps toLowerCase filterBy q) docs)) /\
  (forall filterBy q docs,
     (forall d, In d docs -> getTime (uploadedAt d) <> None) ->
     StronglySorted
       (fun a b => exists ta tb, getTime (uploadedAt a) = Some ta /\
                                 getTime (uploadedAt b) = Some tb /\ tb <= ta)
       (view filterBy q Recent docs)) /\
  (forall d1 d2 t1 t2,
     getTime (uploadedAt d1) = Some t1 -> getTime (uploadedAt d2) = Some t2 ->
     t1 < t2 ->
     view FilterAll "" Recent [d1; d2] = [d2; d1] /\
     view FilterAll "" Recent [d2; d1] = [d2; d1]) /\
  ((forall a b, 0 < localeCompare a b -> localeCompare b a <= 0) ->
   (forall a b c, localeCompare a b <= 0 -> localeCompare b c <= 0 ->
                  localeCompare a c <= 0) ->
   forall filterBy q docs,
     StronglySorted
       (fun a b => localeCompare (originalName a) (originalName b) <= 0)
       (view filterBy q Name docs)) /\
  (forall d1 d2,
     localeCompare (originalName d1) (originalName d2) < 0 ->
     0 < localeCompare (originalName d2) (originalName d1) ->
     view FilterAll "" Name [d2; d1] = [d1; d2] /\
     view FilterAll "" Name [d1; d2] = [d1; d2]) /\
  (forall sortBy docs d,
     In d (view FilterCompleted "" sortBy docs) <->
     In d docs /\ status d = Completed) /\
  (forall sortBy docs,
     Permutation (view FilterCompleted "" sortBy docs)
                 (filter (fun d => DocStatus_eqb (status d) Completed) docs)).
Proof.
  intros view. unfold view.
  split; [|split; [|split; [|split; [|split; [|split]]]]].
  - intros. apply view_perm.
  - intros. now apply view_recent_sorted.
  - intros d1 d2 t1 t2 H1 H2 Hlt. split.
    + apply view_pair_swapped. simpl. rewrite H1, H2. lia.
    + apply view_pair_kept. simpl. rewrite H1, H2. lia.
  - intros. now apply view_name_sorted.
  - intros d1 d2 Hlt Hgt. split.
    + now apply view_pair_swapped.
    + apply view_pair_kept. simpl. lia.
  - intros sortBy docs d. rewrite <- keeps_completed with (toLowerCase := toLowerCase).
    rewrite <- filter_In. split; apply Permutation_in.
    + apply view_perm.
    + apply Permutation_sym, view_perm.
  - intros sortBy docs. rewrite view_perm.
    replace (filter (keeps toLowerCase FilterCompleted "") docs)
      with (filter (fun d => DocStatus_eqb (status d) Completed) docs);
      [reflexivity|].
    apply filter_ext. intros d. unfold keeps. simpl.
    now destruct (status d).
Qed.

(** The scenario of the list page on concrete data: two documents, a.pdf
    of 2024-01-02 (completed) and b.pdf of 2024-01-01 (processing). *)
Example view_scenario :
  let view := filteredAndSortedDocuments Host.toLowerCase Host.getTime
                                         Host.localeCompare in
  view FilterAll "" Recent [Sample.docB; Sample.docA] = [Sample.docA; Sample.docB] /\
  view FilterAll "" Name [Sample.docB; Sample.docA] = [Sample.docA; Sample.docB] /\
  view FilterCompleted "" Recent [Sample.docB; Sample.docA] = [Sample.docA] /\
  view FilterAll "B.PDF" Recent [Sample.docB; Sample.docA] = [Sample.docB].
Proof. repeat split. Qed.

(** The scenario obtained from the general statement, at the concrete
    host, whose collation is a consistent comparator. *)
Example view_sorts_and_filters_at_host :
  StronglySorted
    (fun a b => Host.localeCompare (originalName a) (originalName b) <= 0)
    (filteredAndSortedDocuments Host.toLowerCase Host.getTime
       Host.localeCompare FilterAll "" Name [Sample.docB; Sample.docA]) /\
  filteredAndSortedDocuments Host.toLowerCase Host.getTime Host.localeCompare
    FilterAll "" Recent [Sample.docB; Sample.docA] = [Sample.docA; Sample.docB].
Proof.
  destruct (view_sorts_and_filters Host.toLowerCase Host.getTime
              Host.localeCompare) as [_ [_ [Hrecent [Hname _]]]].
  split.
  - apply Hname.
    + intros a b. apply HostFacts.localeCompare_total.
    + intros a b c. apply HostFacts.localeCompare_trans.
  - apply (Hrecent Sample.docB Sample.docA 1704067200000 1704153600000);
      [reflexivity | reflexivity | lia].
Defined.

(** ** Runs of the upload pipeline *)

(** *** Lists *)

Section ListFacts.
Variables A B : Type.

Lemma flat_map_pos_unique (g : A -> list B) (ls : list A) :
  NoDup (flat_map g ls) ->
  forall b b' l l' x,
    nth_error ls b = Some l -> nth_error ls b' = Some l' ->
    In x (g l) -> In x (g l') -> b = b'.
Proof.
  induction ls as [|l0 ls IH]; intros Hnd b b' l l' x Hb Hb' Hx Hx'.
  - now destruct b.
  - simpl in Hnd. apply NoDup_app_remove_l in Hnd as Hnd'.
    assert (Hdis : forall y, In y (g l0) -> ~ In y (flat_map g ls)).
    { intros y Hy Hy'. revert Hnd Hy Hy'. clear.
      induction (g l0) as [|z zs IHz]; simpl; intros Hnd Hy Hy'.
      - contradiction.
      - inversion Hnd; subst. destruct Hy as [->|Hy].
        + apply H1. apply in_or_app. now right.
        + now apply IHz. }
    destruct b as [|b], b' as [|b']; simpl in Hb, Hb'.
    + reflexivity.
    + injection Hb as <-. exfalso. apply (Hdis x Hx).
      apply in_flat_map. exists l'. split; [|exact Hx'].
      now apply nth_error_In with b'.
    + injection Hb' as <-. exfalso. apply (Hdis x Hx').
      apply in_flat_map. exists l. split; [|exact Hx].
      now apply nth_error_In with b.
    + f_equal. now apply (IH Hnd' b b' l l' x).
Qed.

Lemma flat_map_NoDup_each (g : A -> list B) (ls : list A) l :
  NoDup (flat_map g ls) -> In l ls -> NoDup (g l).
Proof.
  induction ls as [|l0 ls IH]; simpl; intros Hnd Hin; [contradiction|].
  destruct Hin as [->|Hin].
  - now apply NoDup_app_remove_r in Hnd.
  - apply IH; [|exact Hin]. now apply NoDup_app_remove_l in Hnd.
Qed.

Lemma NoDup_map_app_apart (g : A -> B) (l1 l2 : list A) a b :
  NoDup (map g (l1 ++ l2)) -> In a l1 -> In b l2 -> g a <> g b.
Proof.
  rewrite map_app. intros Hnd Ha Hb E.
  induction l1 as [|x l1 IH]; simpl in *; [contradiction|].
  inversion Hnd; subst. destruct Ha as [->|Ha].
  - apply H1. apply in_or_app. right. rewrite E. now apply in_map.
  - now apply IH.
Qed.

Lemma NoDup_map_inj (g : A -> B) (l : list A) a b :
  NoDup (map g l) -> In a l -> In b l -> g a = g b -> a = b.
Proof.
  induction l as [|x l IH]; simpl; intros Hnd Ha Hb E; [contradiction|].
  inversion Hnd; subst.
  destruct Ha as [->|Ha], Hb as [->|Hb]; auto.
  - exfalso. apply H1. rewrite E. now apply in_map.
  - exfalso. apply H1. rewrite <- E. now apply in_map.
Qed.

Lemma NoDup_map_filter (g : A -> B) (p : A -> bool) (l : list A) :
  NoDup (map g l) -> NoDup (map g (filter p l)).
Proof.
  induction l as [|x l IH]; simpl; intros Hnd; [constructor|].
  inversion Hnd; subst. destruct (p x); simpl; [|now apply IH].
  constructor; [|now apply IH].
  intros Hin. apply H1. apply in_map_iff in Hin.
  destruct Hin as [y [E Hy]]. apply filter_In in Hy.
  apply in_map_iff. exists y. tauto.
Qed.

Lemma nth_error_replaceNth_same (l : list A) : forall b x y,
  nth_error l b = Some y -> nth_error (replaceNth b x l) b = Some x.
Proof.
  induction l as [|z l IH]; intros [|b] x y H; simpl in *;
    try discriminate; eauto.
Qed.

Lemma nth_error_replaceNth_other (l : list A) : forall b b' x,
  b <> b' -> nth_error (replaceNth b x l) b' = nth_error l b'.
Proof.
  induction l as [|z l IH]; intros [|b] [|b'] x H; simpl;
    try reflexivity; try congruence.
  apply IH. congruence.
Qed.

Lemma flat_map_replaceNth (g : A -> list B) (l : list A) : forall b x y,
  nth_error l b = Some y -> g x = g y ->
  flat_map g (replaceNth b x l) = flat_map g l.
Proof.
  induction l as [|z l IH]; intros [|b] x y H E; simpl in *;
    try discriminate.
  - injection H as ->. now rewrite E.
  - f_equal. now apply IH with y.
Qed.

Lemma replaceNth_keeps (g : A -> B) (l : list A) : forall b x y z,
  nth_error l b = Some y -> g x = g y -> In z l ->
  exists z', In z' (replaceNth b x l) /\ g z' = g z.
Proof.
  induction l as [|w l IH]; intros [|b] x y z H E Hin; simpl in *;
    try discriminate; try contradiction.
  - injection H as ->. destruct Hin as [->|Hin]; eauto.
  - destruct Hin as [->|Hin]; eauto.
    destruct (IH b x y z H E Hin) as [z' [Hz' Ez']]. eauto.
Qed.
End ListFacts.


(** *** Runs, and what a state holds of one file object *)

Lemma run_app isValidPDF es1 : forall es2 s,
  run isValidPDF (es1 ++ es2) s =
  match run isValidPDF es1 s with
  | Some s1 => run isValidPDF es2 s1
  | None => None
  end.
Proof.
  induction es1 as [|e es1 IH]; intros es2 s; simpl.
  - reflexivity.
  - destruct (step isValidPDF e s); [apply IH | reflexivity].
Qed.

Lemma run_snoc isValidPDF es e s s' :
  run isValidPDF (es ++ [e]) s = Some s' ->
  exists s1, run isValidPDF es s = Some s1 /\ step isValidPDF e s1 = Some s'.
Proof.
  rewrite run_app. destruct (run isValidPDF es s) as [s1|]; [|discriminate].
  simpl. destruct (step isValidPDF e s1) eqn:E; [|discriminate].
  intros H. injection H as <-. eauto.
Qed.

Lemma dropped_app es1 es2 : dropped (es1 ++ es2) = dropped es1 ++ dropped es2.
Proof. unfold dropped. apply flat_map_app. Qed.

Lemma settlesOf_app r l1 l2 :
  settlesOf r (l1 ++ l2) = settlesOf r l1 ++ settlesOf r l2.
Proof. apply flat_map_app. Qed.

Lemma callsOf_app r l1 l2 : callsOf r (l1 ++ l2) = callsOf r l1 ++ callsOf r l2.
Proof. apply flat_map_app. Qed.

Lemma entriesOf_app r l1 l2 :
  entriesOf r (l1 ++ l2) = entriesOf r l1 ++ entriesOf r l2.
Proof. apply filter_app. Qed.

Lemma timersOf_app r l1 l2 :
  timersOf r (l1 ++ l2) = timersOf r l1 ++ timersOf r l2.
Proof. apply filter_app. Qed.

Lemma settlesOf_In t f ok log :
  In (t, UploadSettled f ok) log -> In (t, ok) (settlesOf (fileRef f) log).
Proof.
  intros H. unfold settlesOf. apply in_flat_map.
  exists (t, UploadSettled f ok). split; [exact H|]. simpl.
  rewrite Nat.eqb_refl. now left.
Qed.

Lemma settlesOf_inv r t ok log :
  In (t, ok) (settlesOf r log) ->
  exists f, In (t, UploadSettled f ok) log /\ fileRef f = r.
Proof.
  unfold settlesOf. intros H. apply in_flat_map in H.
  destruct H as [[t' ev] [Hin H]]. simpl in H. destruct ev as [f|f ok']; [contradiction|].
  destruct (Nat.eqb_spec (fileRef f) r) as [E|]; [|contradiction].
  destruct H as [H|[]]. injection H as <- <-. eauto.
Qed.

Lemma callsOf_In t f log :
  In (t, UploadCalled f) log -> In t (callsOf (fileRef f) log).
Proof.
  intros H. unfold callsOf. apply in_flat_map.
  exists (t, UploadCalled f). split; [exact H|]. simpl.
  rewrite Nat.eqb_refl. now left.
Qed.

Lemma callsOf_inv r t log :
  In t (callsOf r log) ->
  exists f, In (t, UploadCalled f) log /\ fileRef f = r.
Proof.
  unfold callsOf. intros H. apply in_flat_map in H.
  destruct H as [[t' ev] [Hin H]]. simpl in H. destruct ev as [f|f ok']; [|contradiction].
  destruct (Nat.eqb_spec (fileRef f) r) as [E|]; [|contradiction].
  destruct H as [H|[]]. subst. eauto.
Qed.

Lemma entriesOf_In r ups u :
  In u (entriesOf r ups) <-> In u ups /\ fileRef (file u) = r.
Proof. unfold entriesOf. now rewrite filter_In, Nat.eqb_eq. Qed.

Lemma entriesOf_nil r ups :
  entriesOf r ups = [] <-> forall u, In u ups -> fileRef (file u) <> r.
Proof.
  split.
  - intros E u Hu Hr. assert (H : In u (entriesOf r ups)) by now apply entriesOf_In.
    now rewrite E in H.
  - intros H. destruct (entriesOf r ups) as [|u l] eqn:E; [reflexivity|].
    assert (Hu : In u (entriesOf r ups)) by (rewrite E; now left).
    apply entriesOf_In in Hu. destruct Hu as [Hu Hr]. now elim (H u Hu).
Qed.

Lemma entriesOf_mapFile_other r f g ups :
  fileRef f <> r -> (forall u, file (g u) = file u) ->
  entriesOf r (mapFile f g ups) = entriesOf r ups.
Proof.
  intros Hr Hg. unfold entriesOf, mapFile.
  induction ups as [|u ups IH]; simpl; [reflexivity|].
  destruct (sameFile (file u) f) eqn:E.
  - rewrite Hg. unfold sameFile in E. apply Nat.eqb_eq in E.
    destruct (Nat.eqb_spec (fileRef (file u)) r); [congruence|]. exact IH.
  - destruct (Nat.eqb (fileRef (file u)) r); [f_equal|]; exact IH.
Qed.

Lemma entriesOf_mapFile_same f g ups :
  (forall u, file (g u) = file u) ->
  entriesOf (fileRef f) (mapFile f g ups) = map g (entriesOf (fileRef f) ups).
Proof.
  intros Hg. unfold entriesOf, mapFile.
  induction ups as [|u ups IH]; simpl; [reflexivity|].
  destruct (sameFile (file u) f) eqn:E.
  - rewrite Hg. unfold sameFile in E. rewrite E. simpl. now f_equal.
  - unfold sameFile in E. rewrite E. exact IH.
Qed.

Lemma entriesOf_remove_other r f ups :
  fileRef f <> r ->
  entriesOf r (filter (fun u => negb (sameFile (file u) f)) ups) =
  entriesOf r ups.
Proof.
  intros Hr. unfold entriesOf. induction ups as [|u ups IH]; simpl; [reflexivity|].
  destruct (sameFile (file u) f) eqn:E; simpl.
  - unfold sameFile in E. apply Nat.eqb_eq in E.
    destruct (Nat.eqb_spec (fileRef (file u)) r); [congruence|]. exact IH.
  - destruct (Nat.eqb (fileRef (file u)) r); [f_equal|]; exact IH.
Qed.

Lemma entriesOf_remove_same f ups :
  entriesOf (fileRef f) (filter (fun u => negb (sameFile (file u) f)) ups) = [].
Proof.
  apply entriesOf_nil. intros u Hu E. apply filter_In in Hu.
  destruct Hu as [_ Hu]. unfold sameFile in Hu.
  apply Nat.eqb_eq in E. now rewrite E in Hu.
Qed.

Lemma takeDue_split t ts : forall cb rest,
  takeDue t ts = Some (cb, rest) ->
  exists due l1 l2,
    ts = l1 ++ (due, cb) :: l2 /\ rest = l1 ++ l2 /\ due <= t.
Proof.
  induction ts as [|[due0 cb0] ts IH]; intros cb rest H; simpl in H.
  - discriminate.
  - destruct (Z.leb_spec due0 t) as [Hle|Hgt].
    + injection H as <- <-. now exists due0, [], ts.
    + destruct (takeDue t ts) as [[cb' rest']|]; [|discriminate].
      injection H as <- <-.
      destruct (IH cb' rest' eq_refl) as [due [l1 [l2 [E1 [E2 Hd]]]]].
      exists due, ((due0, cb0) :: l1), l2. subst. repeat split. exact Hd.
Qed.

Lemma takeDue_some t ts due cb :
  In (due, cb) ts -> due <= t -> exists cb' rest, takeDue t ts = Some (cb', rest).
Proof.
  induction ts as [|[due0 cb0] ts IH]; simpl; intros Hin Hle; [contradiction|].
  destruct (Z.leb_spec due0 t); [eauto|].
  destruct Hin as [E|Hin]; [injection E as -> ->; lia|].
  destruct (IH Hin Hle) as [cb' [rest ->]]. eauto.
Qed.


Lemma entriesOf_mapFile r f g ups :
  (forall u, file (g u) = file u) ->
  entriesOf r (mapFile f g ups) =
  if Nat.eqb (fileRef f) r then map g (entriesOf r ups) else entriesOf r ups.
Proof.
  intros Hg. destruct (Nat.eqb_spec (fileRef f) r) as [<-|N].
  - now apply entriesOf_mapFile_same.
  - now apply entriesOf_mapFile_other.
Qed.

Lemma Forall_status_map (g : UploadProgress -> UploadProgress) st entries :
  (forall u, ustatus (g u) = st) ->
  Forall (fun u => ustatus u = st) (map g entries).
Proof.
  intros Hg. apply Forall_forall. intros u Hu. apply in_map_iff in Hu.
  destruct Hu as [v [<- _]]. apply Hg.
Qed.

Lemma Forall_status_kept (g : UploadProgress -> UploadProgress) st entries :
  (forall u, ustatus (g u) = ustatus u) ->
  Forall (fun u => ustatus u = st) entries ->
  Forall (fun u => ustatus u = st) (map g entries).
Proof.
  intros Hg H. apply Forall_forall. intros u Hu. apply in_map_iff in Hu.
  destruct Hu as [v [<- Hv]]. rewrite Hg. rewrite Forall_forall in H. now apply H.
Qed.

Lemma map_not_nil {A B} (g : A -> B) l : l <> [] -> map g l <> [].
Proof. now destruct l. Qed.

Lemma phaseOf_map g settles entries tms nw :
  (forall u, ustatus (g u) = ustatus u) ->
  phaseOf settles entries tms nw -> phaseOf settles (map g entries) tms nw.
Proof.
  intros Hg. unfold phaseOf.
  destruct settles as [|[t ok] rest]; [|destruct ok, rest]; try tauto.
  - intros [H1 [H2 H3]].
    split; [now apply map_not_nil|]. split; [now apply Forall_status_kept|exact H3].
  - intros [[H1 [H2 H3]]|[[H1 [H2 H3]]|[H1 H3]]].
    + left. split; [now apply map_not_nil|]. split; [now apply Forall_status_kept|exact H3].
    + right; left. split; [now apply map_not_nil|]. split; [now apply Forall_status_kept|exact H3].
    + right; right. subst. now split.
  - intros [H1 [H2 H3]].
    split; [now apply map_not_nil|]. split; [now apply Forall_status_kept|exact H3].
Qed.

Lemma timersOf_single_In r ts tm : timersOf r ts = [tm] -> In tm ts.
Proof.
  intros E. assert (H : In tm (timersOf r ts)) by (rewrite E; now left).
  unfold timersOf in H. apply filter_In in H. tauto.
Qed.

Lemma timersOf_nil r ts :
  (forall due cb, In (due, cb) ts -> fileRef (timerFile cb) <> r) ->
  timersOf r ts = [].
Proof.
  intros H. unfold timersOf. induction ts as [|[due cb] ts IH]; simpl; [reflexivity|].
  destruct (Nat.eqb_spec (fileRef (timerFile cb)) r) as [E|N].
  - exfalso. apply (H due cb); [now left | exact E].
  - apply IH. intros d c Hin. apply (H d c). now right.
Qed.

Lemma settlesOf_nil r log :
  (forall t ev, In (t, ev) log -> fileRef (eventFile ev) <> r) ->
  settlesOf r log = [].
Proof.
  intros H. unfold settlesOf. induction log as [|[t ev] log IH]; simpl; [reflexivity|].
  rewrite IH by (intros t' ev' Hin; apply (H t' ev'); now right).
  destruct ev as [f|f ok]; [reflexivity|].
  destruct (Nat.eqb_spec (fileRef f) r) as [E|N]; [|reflexivity].
  exfalso. apply (H t (UploadSettled f ok)); [now left | exact E].
Qed.

Lemma callsOf_nil r log :
  (forall t ev, In (t, ev) log -> fileRef (eventFile ev) <> r) ->
  callsOf r log = [].
Proof.
  intros H. unfold callsOf. induction log as [|[t ev] log IH]; simpl; [reflexivity|].
  rewrite IH by (intros t' ev' Hin; apply (H t' ev'); now right).
  destruct ev as [f|f ok]; [|reflexivity].
  destruct (Nat.eqb_spec (fileRef f) r) as [E|N]; [|reflexivity].
  exfalso. apply (H t (UploadCalled f)); [now left | exact E].
Qed.

Lemma dropped_snoc_other es e :
  (forall fs, e <> Drop fs) -> dropped (es ++ [e]) = dropped es.
Proof.
  intros H. rewrite dropped_app. unfold dropped at 2. simpl.
  destruct e; try now rewrite !app_nil_r. now elim (H acceptedFiles).
Qed.

Lemma In_Drop_snoc_other es e fs :
  (forall fs', e <> Drop fs') -> In (Drop fs) (es ++ [e]) -> In (Drop fs) es.
Proof.
  intros H Hin. apply in_app_or in Hin. destruct Hin as [Hin|[E|[]]]; [exact Hin|].
  now elim (H fs).
Qed.

(** *** The clock and progress reports keep the invariant *)

Section PreservationClock.
Variable isValidPDF : File -> bool.

Lemma invariant_mounted t0 st : Invariant isValidPDF [] (mounted t0 st).
Proof. constructor; simpl; try contradiction; try reflexivity.
  intros [|b] bt k f H; discriminate. Qed.

Lemma invariant_advance es s t :
  Invariant isValidPDF es s ->
  now s <= t -> (forall due cb, In (due, cb) (timers s) -> t <= due) ->
  Invariant isValidPDF (es ++ [Advance t])
            (mkUploader t (uploads s) (store s) (toasts s) (timers s)
                        (running s) (apiLog s)).
Proof.
  intros [I1 I2 I3 I4 I5 I6 I7] Hnow Hdue.
  constructor; simpl; try assumption.
  - rewrite dropped_snoc_other by discriminate. exact I1.
  - intros fs Hin. apply I2. revert Hin. apply In_Drop_snoc_other. discriminate.
  - intros f Hf. specialize (I7 f Hf). unfold phase in *. simpl.
    unfold phaseOf in *.
    destruct (settlesOf (fileRef f) (apiLog s)) as [|[t1 ok] rest];
      [|destruct ok, rest]; try tauto.
    destruct I7 as [[H1 [H2 [H3 [g H4]]]]|[[H1 [H2 [H3 [g H4]]]]|[H1 [H3 H4]]]].
    + left. repeat split; auto; [|eauto].
      apply timersOf_single_In in H4. now apply Hdue in H4.
    + right; left. repeat split; auto; [lia| |eauto].
      apply timersOf_single_In in H4. now apply Hdue in H4.
    + right; right. repeat split; auto. lia.
Qed.

Lemma invariant_progress es s b p f :
  Invariant isValidPDF es s ->
  Invariant isValidPDF (es ++ [Progress b p])
            (mkUploader (now s) (mapFile f (setProgress p) (uploads s))
                        (store s) (toasts s) (timers s) (running s) (apiLog s)).
Proof.
  intros [I1 I2 I3 I4 I5 I6 I7].
  constructor; simpl; try assumption.
  - rewrite dropped_snoc_other by discriminate. exact I1.
  - intros fs Hin. apply I2. revert Hin. apply In_Drop_snoc_other. discriminate.
  - intros u Hu. apply mapFile_In in Hu. destruct Hu as [v [Hv ->]].
    destruct (sameFile (file v) f); simpl; now apply I4.
  - intros g Hg. specialize (I7 g Hg). unfold phase in *. simpl.
    rewrite entriesOf_mapFile by reflexivity.
    destruct (Nat.eqb (fileRef f) (fileRef g)); [|exact I7].
    now apply phaseOf_map.
Qed.
End PreservationClock.


(** *** A timer that runs keeps the invariant *)

Lemma app_cons_single {A} (l1 l2 : list A) a x :
  l1 ++ a :: l2 = [x] -> l1 = [] /\ l2 = [] /\ a = x.
Proof.
  destruct l1 as [|y l1]; simpl; intros E.
  - injection E as -> ->. auto.
  - injection E as _ E. now destruct l1.
Qed.

Lemma timersOf_split_same due cb l1 l2 :
  timersOf (fileRef (timerFile cb)) (l1 ++ (due, cb) :: l2) =
  timersOf (fileRef (timerFile cb)) l1 ++
  (due, cb) :: timersOf (fileRef (timerFile cb)) l2.
Proof.
  rewrite timersOf_app. f_equal. unfold timersOf. simpl.
  now rewrite Nat.eqb_refl.
Qed.

Lemma timersOf_split_other r due cb l1 l2 :
  fileRef (timerFile cb) <> r ->
  timersOf r (l1 ++ (due, cb) :: l2) = timersOf r (l1 ++ l2).
Proof.
  intros N. rewrite !timersOf_app. f_equal. unfold timersOf. simpl.
  apply Nat.eqb_neq in N. now rewrite N.
Qed.

Lemma timersOf_snoc_other r ts due cb :
  fileRef (timerFile cb) <> r -> timersOf r (ts ++ [(due, cb)]) = timersOf r ts.
Proof.
  intros N. rewrite timersOf_app. unfold timersOf at 2. simpl.
  apply Nat.eqb_neq in N. rewrite N. apply app_nil_r.
Qed.

Lemma timersOf_snoc_same ts due cb :
  timersOf (fileRef (timerFile cb)) (ts ++ [(due, cb)]) =
  timersOf (fileRef (timerFile cb)) ts ++ [(due, cb)].
Proof.
  rewrite timersOf_app. unfold timersOf at 2. simpl. now rewrite Nat.eqb_refl.
Qed.

Lemma phaseOf_ext st st' en en' tm tm' nw nw' :
  st' = st -> en' = en -> tm' = tm -> nw' = nw ->
  phaseOf st en tm nw -> phaseOf st' en' tm' nw'.
Proof. now intros -> -> -> ->. Qed.

Section PreservationTimer.
Variable isValidPDF : File -> bool.

Lemma invariant_fire es s cb rest :
  Invariant isValidPDF es s ->
  takeDue (now s) (timers s) = Some (cb, rest) ->
  Invariant isValidPDF (es ++ [Fire])
            (runTimer cb
               (mkUploader (now s) (uploads s) (store s) (toasts s) rest
                           (running s) (apiLog s))).
Proof.
  intros [I1 I2 I3 I4 I5 I6 I7] Htake.
  destruct (takeDue_split _ _ Htake) as [due [l1 [l2 [Ets [-> Hdue]]]]].
  assert (Hcb : In (timerFile cb) (allFiles s)).
  { apply (I5 due cb). rewrite Ets. apply in_or_app. right. now left. }
  assert (Hrest : forall d c, In (d, c) (l1 ++ l2) -> In (d, c) (timers s)).
  { intros d c Hin. rewrite Ets. apply in_app_or in Hin.
    apply in_or_app. destruct Hin; [now left | right; now right]. }
  (* the phase of the file whose timer fires *)
  assert (Hown := I7 _ Hcb). unfold phase in Hown.
  rewrite Ets, timersOf_split_same in Hown.
  match goal with |- Invariant _ _ ?x => set (s' := x) end.
  assert (Hrun : running s' = running s) by now destruct cb.
  assert (Hlog : apiLog s' = apiLog s) by now destruct cb.
  assert (Hnow : now s' = now s) by now destruct cb.
  assert (Hall : allFiles s' = allFiles s) by now destruct cb.
  constructor; rewrite ?Hrun, ?Hlog, ?Hall; try assumption.
  - rewrite dropped_snoc_other by discriminate. exact I1.
  - intros fs Hin. apply In_Drop_snoc_other in Hin; [|discriminate].
    now apply I2.
  - subst s'. intros u Hu. destruct cb as [f|f]; simpl in Hu.
    + apply mapFile_In in Hu. destruct Hu as [v [Hv ->]].
      destruct (sameFile (file v) f); simpl; now apply I4.
    + apply filter_In in Hu. apply I4. tauto.
  - subst s'. intros d c Hin. destruct cb as [f|f]; simpl in Hin.
    + apply in_app_or in Hin. destruct Hin as [Hin|[E|[]]].
      * apply (I5 d c). now apply Hrest.
      * injection E as <- <-. exact Hcb.
    + apply (I5 d c). now apply Hrest.
  - intros g Hg. specialize (I7 g Hg). unfold phase in *.
    rewrite Hlog, Hnow. clear Hrun Hlog Hnow Hall. subst s'.
    destruct (Nat.eq_dec (fileRef (timerFile cb)) (fileRef g)) as [E|N].
    + (* the file of the timer *)
      rewrite <- E in *. clear I7.
      unfold phaseOf in Hown.
      destruct (settlesOf (fileRef (timerFile cb)) (apiLog s)) as [|[t ok] more] eqn:Es;
        [|destruct ok, more]; try tauto.
      * destruct Hown as [_ [_ H]]. now destruct (timersOf _ l1).
      * destruct Hown as [[H1 [H2 [H3 [f H4]]]]|[[H1 [H2 [H3 [f H4]]]]|[_ [_ H4]]]].
        -- apply app_cons_single in H4. destruct H4 as [E1 [E2 E3]].
           injection E3 as -> ->. simpl in *.
           unfold phaseOf. right; left.
           rewrite entriesOf_mapFile_same by reflexivity.
           split; [now apply map_not_nil|].
           split; [now apply Forall_status_map|].
           split; [lia|]. exists f.
           pose proof (timersOf_snoc_same (l1 ++ l2) (now s + 3000)
                         (RemoveUpload f)) as X.
           etransitivity; [exact X|]. simpl. rewrite timersOf_app, E1, E2. simpl.
           replace (now s + 3000) with (t + 4000) by lia. reflexivity.
        -- apply app_cons_single in H4. destruct H4 as [E1 [E2 E3]].
           injection E3 as -> ->. simpl in *.
           unfold phaseOf. right; right.
           split; [apply entriesOf_remove_same|].
           split; [lia|]. now rewrite timersOf_app, E1, E2.
        -- now destruct (timersOf _ l1).
      * destruct Hown as [_ [_ H]]. now destruct (timersOf _ l1).
    + (* another file *)
      rewrite Ets in I7. rewrite (@timersOf_split_other _ due cb l1 l2 N) in I7.
      destruct cb as [f|f]; simpl in *.
      * eapply phaseOf_ext; [reflexivity| | |reflexivity|exact I7].
        -- now apply entriesOf_mapFile_other.
        -- exact (@timersOf_snoc_other (fileRef g) (l1 ++ l2) (now s + 3000)
                      (RemoveUpload f) N).
      * now rewrite entriesOf_remove_other.
Qed.
End PreservationTimer.


(** *** A settled upload keeps the invariant *)

Lemma allFiles_refs s :
  map fileRef (allFiles s) =
  flat_map (fun bt => map fileRef (batchFiles bt)) (running s).
Proof.
  unfold allFiles. induction (running s) as [|bt l IH]; simpl.
  - reflexivity.
  - now rewrite map_app, IH.
Qed.

Lemma batch_file_known s b bt k f :
  nth_error (running s) b = Some bt ->
  nth_error (batchFiles bt) k = Some f -> In f (allFiles s).
Proof.
  intros Hb Hk. unfold allFiles. apply in_flat_map. exists bt.
  split; [now apply nth_error_In with b | now apply nth_error_In with k].
Qed.

(** A file object stands at one place of one batch. *)
Lemma ref_pos_unique s b b1 bt bt1 k k1 f f1 :
  NoDup (map fileRef (allFiles s)) ->
  nth_error (running s) b = Some bt -> nth_error (running s) b1 = Some bt1 ->
  nth_error (batchFiles bt) k = Some f ->
  nth_error (batchFiles bt1) k1 = Some f1 ->
  fileRef f = fileRef f1 -> b = b1 /\ k = k1.
Proof.
  rewrite allFiles_refs. intros Hnd Hb Hb1 Hk Hk1 E.
  assert (Eb : b = b1).
  { apply (flat_map_pos_unique _ _ Hnd b b1 (fileRef f) Hb Hb1).
    - apply in_map. now apply nth_error_In with k.
    - rewrite E. apply in_map. now apply nth_error_In with k1. }
  subst b1. split; [reflexivity|].
  rewrite Hb in Hb1. injection Hb1 as <-.
  assert (Hnd' : NoDup (map fileRef (batchFiles bt))).
  { apply (flat_map_NoDup_each _ _ bt Hnd). now apply nth_error_In with b. }
  rewrite NoDup_nth_error in Hnd'. apply Hnd'.
  - rewrite length_map. apply nth_error_Some. congruence.
  - rewrite !nth_error_map, Hk, Hk1. simpl. now rewrite E.
Qed.

Lemma settlesOf_snoc r log t f ok :
  settlesOf r (log ++ [(t, UploadSettled f ok)]) =
  settlesOf r log ++ (if Nat.eqb (fileRef f) r then [(t, ok)] else []).
Proof.
  rewrite settlesOf_app. f_equal. unfold settlesOf. simpl. apply app_nil_r.
Qed.

Lemma callsOf_snoc_settle r log t f ok :
  callsOf r (log ++ [(t, UploadSettled f ok)]) = callsOf r log.
Proof. rewrite callsOf_app. apply app_nil_r. Qed.

Lemma app_not_nil_iff {A} (l1 l2 : list A) :
  l1 ++ l2 <> [] <-> l1 <> [] \/ l2 <> [].
Proof.
  destruct l1; simpl.
  - split; [now right | intros [H|H]; [congruence | exact H]].
  - split; [left | ]; discriminate.
Qed.

Lemma settle_shape isValidPDF b o s s' :
  step isValidPDF (Settle b o) s = Some s' ->
  exists bt upload,
    nth_error (running s) b = Some bt /\ inFlight bt = Some upload /\
    now s' = now s /\
    running s' = replaceNth b (mkBatch (newUploads bt) (S (pos bt))) (running s) /\
    apiLog s' = (apiLog s ++ [(now s, UploadSettled (file upload) (isResolved o))])
                ++ nextCall bt (now s) /\
    uploads s' = mapFile (file upload) (settleEntry o) (uploads s) /\
    timers s' = timers s ++ settleTimers o (file upload) (now s).
Proof.
  intros Hs. apply step_settle_inv in Hs.
  destruct Hs as [bt [upload [Hb [Hu ->]]]]. exists bt, upload.
  split; [exact Hb|]. split; [exact Hu|].
  unfold nextIteration, nextCall, inFlight. cbn [newUploads pos].
  destruct (nth_error (newUploads bt) (S (pos bt))) as [next|];
    destruct o as [doc|t]; simpl; repeat split;
    now rewrite ?app_nil_r.
Qed.


Lemma settlesOf_nextCall r bt t : settlesOf r (nextCall bt t) = [].
Proof. unfold nextCall. now destruct (nth_error _ _). Qed.

Lemma callsOf_nextCall r bt t :
  callsOf r (nextCall bt t) <> [] <->
  exists f, nth_error (batchFiles bt) (S (pos bt)) = Some f /\ fileRef f = r.
Proof.
  unfold nextCall, batchFiles. rewrite nth_error_map.
  destruct (nth_error (newUploads bt) (S (pos bt))) as [next|];
    unfold callsOf; simpl.
  - destruct (Nat.eqb_spec (fileRef (file next)) r) as [E|N]; simpl; split.
    + intros _. now exists (file next).
    + discriminate.
    + congruence.
    + intros [f [Hf E]]. injection Hf as <-. contradiction.
  - split; [congruence | intros [f [Hf _]]; discriminate].
Qed.

Lemma settleEntry_file o u : file (settleEntry o u) = file u.
Proof. now destruct o. Qed.

Lemma nil_iff_not {A} (l : list A) : ~ (l <> []) -> l = [].
Proof. destruct l; [reflexivity | intros H; elim H; discriminate]. Qed.

Lemma allFiles_NoDup isValidPDF es s :
  Invariant isValidPDF es s -> NoDup (map fileRef (dropped es)) ->
  NoDup (map fileRef (allFiles s)).
Proof. intros I H. rewrite (inv_files I). now apply NoDup_map_filter. Qed.

Section PreservationSettle.
Variable isValidPDF : File -> bool.

Lemma invariant_settle es s s' b o :
  Invariant isValidPDF es s -> NoDup (map fileRef (dropped es)) ->
  step isValidPDF (Settle b o) s = Some s' ->
  Invariant isValidPDF (es ++ [Settle b o]) s'.
Proof.
  intros Inv Hnd Hs.
  pose proof (allFiles_NoDup Inv Hnd) as Hnd'.
  destruct Inv as [I1 I2 I3 I4 I5 I6 I7].
  destruct (settle_shape _ _ _ _ Hs)
    as [bt [upload [Hb [Hu [En [Er [El [Eu Et]]]]]]]].
  set (f0 := file upload) in *.
  assert (Hk0 : nth_error (batchFiles bt) (pos bt) = Some f0).
  { unfold batchFiles. rewrite nth_error_map. unfold inFlight in Hu.
    now rewrite Hu. }
  assert (Hall : allFiles s' = allFiles s).
  { unfold allFiles. rewrite Er. now apply flat_map_replaceNth with bt. }
  assert (Hf0 : In f0 (allFiles s)) by now apply batch_file_known with b bt (pos bt).
  constructor; rewrite ?Hall.
  - rewrite dropped_snoc_other by discriminate. exact I1.
  - intros fs Hin. apply In_Drop_snoc_other in Hin; [|discriminate].
    destruct (I2 fs Hin) as [H|[bt2 [Hin2 E2]]]; [now left|right].
    rewrite Er.
    destruct (replaceNth_keeps batchFiles (running s) b
                (mkBatch (newUploads bt) (S (pos bt))) bt2 Hb eq_refl Hin2)
      as [bt3 [H3 E3]].
    exists bt3. split; [exact H3 | congruence].
  - intros t ev Hin. rewrite El in Hin.
    apply in_app_or in Hin. destruct Hin as [Hin|Hin].
    + apply in_app_or in Hin. destruct Hin as [Hin|[E|[]]].
      * now apply (I3 t ev).
      * injection E as <- <-. exact Hf0.
    + unfold nextCall in Hin.
      destruct (nth_error (newUploads bt) (S (pos bt))) as [next|] eqn:Hn;
        [|contradiction].
      destruct Hin as [E|[]]. injection E as <- <-. simpl.
      apply batch_file_known with b bt (S (pos bt)); [exact Hb|].
      unfold batchFiles. now rewrite nth_error_map, Hn.
  - intros u Hin. rewrite Eu in Hin. apply mapFile_In in Hin.
    destruct Hin as [v [Hv ->]].
    destruct (sameFile (file v) f0); rewrite ?settleEntry_file; now apply I4.
  - intros due cb Hin. rewrite Et in Hin.
    apply in_app_or in Hin. destruct Hin as [Hin|Hin]; [now apply (I5 due cb)|].
    destruct o; simpl in Hin; [|contradiction].
    destruct Hin as [E|[]]. injection E as <- <-. exact Hf0.
  - intros b1 bt1 k f Hb1 Hk. rewrite Er in Hb1. rewrite El.
    rewrite callsOf_app, callsOf_snoc_settle.
    rewrite settlesOf_app, settlesOf_snoc, settlesOf_nextCall, app_nil_r.
    rewrite !app_not_nil_iff, callsOf_nextCall.
    destruct (Nat.eq_dec b b1) as [<-|Nb].
    + rewrite (nth_error_replaceNth_same _ _ _ Hb) in Hb1.
      injection Hb1 as <-. simpl pos.
      change (nth_error (batchFiles bt) k = Some f) in Hk.
      destruct (I6 b bt k f Hb Hk) as [Hc Hse].
      assert (Hpos : fileRef f0 = fileRef f <-> k = pos bt).
      { split.
        - intros E.
          now destruct (@ref_pos_unique s b b bt bt k (pos bt) f f0
                          Hnd' Hb Hb Hk Hk0 (eq_sym E)).
        - intros ->. congruence. }
      split.
      * rewrite Hc. split.
        -- intros [H|[g [Hg Eg]]]; [lia|].
           destruct (@ref_pos_unique s b b bt bt k (S (pos bt)) f g
                       Hnd' Hb Hb Hk Hg (eq_sym Eg)). lia.
        -- intros Hle. destruct (Nat.eq_dec k (S (pos bt))) as [->|N].
           ++ right. now exists f.
           ++ left. lia.
      * rewrite Hse.
        destruct (Nat.eqb_spec (fileRef f0) (fileRef f)) as [E|N].
        -- apply Hpos in E. split; [lia | intros _; right; discriminate].
        -- split; [intros [H|H]; [lia | congruence]|].
           intros Hlt. left.
           destruct (Nat.eq_dec k (pos bt)) as [E|]; [|lia].
           apply Hpos in E. contradiction.
    + rewrite nth_error_replaceNth_other in Hb1 by exact Nb.
      destruct (I6 b1 bt1 k f Hb1 Hk) as [Hc Hse].
      split.
      * rewrite Hc. split; [|tauto].
        intros [H|[g [Hg Eg]]]; [exact H|].
        destruct (@ref_pos_unique s b1 b bt1 bt k (S (pos bt)) f g
                    Hnd' Hb1 Hb Hk Hg (eq_sym Eg)). congruence.
      * rewrite Hse.
        destruct (Nat.eqb_spec (fileRef f0) (fileRef f)) as [E|N].
        -- destruct (@ref_pos_unique s b1 b bt1 bt k (pos bt) f f0
                       Hnd' Hb1 Hb Hk Hk0 (eq_sym E)). congruence.
        -- split; [intros [H|H]; [exact H | congruence] | tauto].
  - intros g Hg. unfold phase. rewrite En.
    destruct (Nat.eq_dec (fileRef f0) (fileRef g)) as [E|N].
    + (* the file that settled *)
      rewrite <- E.
      assert (Hnone : settlesOf (fileRef f0) (apiLog s) = []).
      { apply nil_iff_not. intros H.
        apply (proj2 (I6 b bt (pos bt) f0 Hb Hk0)) in H. lia. }
      pose proof (I7 f0 Hf0) as P0. unfold phase in P0.
      rewrite Hnone in P0. destruct P0 as [P1 [P2 P3]].
      apply phaseOf_ext
        with (st := [(now s, isResolved o)])
             (en := map (settleEntry o) (entriesOf (fileRef f0) (uploads s)))
             (tm := settleTimers o f0 (now s)) (nw := now s).
      * rewrite El, settlesOf_app, settlesOf_snoc, settlesOf_nextCall, Hnone.
        now rewrite Nat.eqb_refl.
      * rewrite Eu. apply entriesOf_mapFile_same. apply settleEntry_file.
      * rewrite Et, timersOf_app, P3. simpl.
        destruct o; simpl; [|reflexivity]. now rewrite Nat.eqb_refl.
      * reflexivity.
      * destruct o as [doc|t]; simpl.
        -- left. split; [now apply map_not_nil|].
           split; [now apply Forall_status_map|].
           split; [lia | now exists f0].
        -- split; [now apply map_not_nil|].
           split; [now apply Forall_status_map | reflexivity].
    + (* another file *)
      eapply phaseOf_ext; [| | |reflexivity|exact (I7 g Hg)].
      * rewrite El, settlesOf_app, settlesOf_snoc, settlesOf_nextCall.
        apply Nat.eqb_neq in N. rewrite N. now rewrite !app_nil_r.
      * rewrite Eu. apply entriesOf_mapFile_other; [exact N|].
        apply settleEntry_file.
      * rewrite Et, timersOf_app.
        destruct o; simpl; [|apply app_nil_r].
        apply Nat.eqb_neq in N. rewrite N. apply app_nil_r.
Qed.
End PreservationSettle.


(** *** A drop of new file objects keeps the invariant *)

Lemma onDrop_shape isValidPDF fs s :
  now (onDrop isValidPDF fs s) = now s /\
  timers (onDrop isValidPDF fs s) = timers s /\
  running (onDrop isValidPDF fs s) =
    running s ++ dropBatch (validFiles isValidPDF fs) /\
  apiLog (onDrop isValidPDF fs s) =
    apiLog s ++ dropCall (validFiles isValidPDF fs) (now s).
Proof.
  unfold onDrop. destruct (validFiles isValidPDF fs); simpl;
    rewrite ?app_nil_r; repeat split.
Qed.

Lemma batchFiles_fresh valid :
  batchFiles (mkBatch (map newUpload valid) 0) = valid.
Proof. unfold batchFiles. simpl. rewrite map_map. simpl. apply map_id. Qed.

Lemma dropBatch_files valid : flat_map batchFiles (dropBatch valid) = valid.
Proof.
  destruct valid as [|f0 valid]; [reflexivity|].
  unfold dropBatch. cbn [flat_map]. rewrite app_nil_r. apply batchFiles_fresh.
Qed.

Lemma entriesOf_fresh r valid :
  entriesOf r (map newUpload valid) =
  map newUpload (filter (fun f => Nat.eqb (fileRef f) r) valid).
Proof.
  unfold entriesOf. induction valid as [|f valid IH]; simpl; [reflexivity|].
  destruct (Nat.eqb (fileRef f) r); simpl; now rewrite IH.
Qed.

Lemma filter_none {A} (p : A -> bool) l :
  (forall x, In x l -> p x = false) -> filter p l = [].
Proof.
  induction l as [|x l IH]; simpl; intros H; [reflexivity|].
  rewrite (H x) by now left. apply IH. intros y Hy. apply H. now right.
Qed.

Section PreservationDrop.
Variable isValidPDF : File -> bool.

Lemma invariant_drop es s fs :
  Invariant isValidPDF es s ->
  NoDup (map fileRef (dropped (es ++ [Drop fs]))) ->
  Invariant isValidPDF (es ++ [Drop fs]) (onDrop isValidPDF fs s).
Proof.
  intros Inv Hnd.
  assert (Ed : dropped (es ++ [Drop fs]) = dropped es ++ fs).
  { rewrite dropped_app. unfold dropped at 2. simpl. now rewrite app_nil_r. }
  rewrite Ed in Hnd.
  destruct Inv as [I1 I2 I3 I4 I5 I6 I7].
  set (valid := validFiles isValidPDF fs).
  destruct (onDrop_shape isValidPDF fs s) as [En [Et [Er El]]].
  fold valid in Er, El.
  pose proof (onDrop_uploads isValidPDF fs s) as Eu. fold valid in Eu.
  set (s' := onDrop isValidPDF fs s) in *.
  assert (Hall : allFiles s' = allFiles s ++ valid).
  { unfold allFiles. rewrite Er, flat_map_app. now rewrite dropBatch_files. }
  assert (Hfresh : forall f g, In f (allFiles s) -> In g valid ->
                               fileRef f <> fileRef g).
  { intros f g Hf Hg. eapply NoDup_map_app_apart; [exact Hnd| |].
    - rewrite I1 in Hf. apply filter_In in Hf. tauto.
    - unfold valid, validFiles in Hg. apply filter_In in Hg. tauto. }
  assert (Hndv : NoDup (map fileRef valid)).
  { apply NoDup_map_filter. rewrite map_app in Hnd.
    now apply NoDup_app_remove_l in Hnd. }
  assert (Hlog : forall g, In g valid ->
            forall t ev, In (t, ev) (apiLog s) ->
                         fileRef (eventFile ev) <> fileRef g).
  { intros g Hg t ev Hin. apply Hfresh; [|exact Hg]. now apply (I3 t ev). }
  constructor; rewrite ?Hall.
  - rewrite Ed, filter_app. now rewrite I1.
  - intros fs' Hin. apply in_app_or in Hin. destruct Hin as [Hin|[E|[]]].
    + destruct (I2 fs' Hin) as [H|[bt [Hbt E]]]; [now left|right].
      exists bt. split; [|exact E]. rewrite Er. apply in_or_app. now left.
    + injection E as <-. fold valid.
      destruct valid as [|f0 rest] eqn:Ev; [now left|right].
      exists (mkBatch (map newUpload (f0 :: rest)) 0). split.
      * rewrite Er. apply in_or_app. right. now left.
      * apply batchFiles_fresh.
  - intros t ev Hin. rewrite El in Hin. apply in_or_app.
    apply in_app_or in Hin. destruct Hin as [Hin|Hin].
    + left. now apply (I3 t ev).
    + right. destruct valid as [|f0 rest]; [contradiction|].
      destruct Hin as [E|[]]. injection E as <- <-. now left.
  - intros u Hin. rewrite Eu in Hin. apply in_or_app.
    apply in_app_or in Hin. destruct Hin as [Hin|Hin].
    + left. now apply I4.
    + right. apply in_map_iff in Hin. now destruct Hin as [f [<- Hf]].
  - intros due cb Hin. rewrite Et in Hin. apply in_or_app. left.
    now apply (I5 due cb).
  - intros b1 bt1 k f Hb1 Hk. rewrite Er in Hb1. rewrite El.
    rewrite callsOf_app, settlesOf_app.
    assert (Hs0 : settlesOf (fileRef f) (dropCall valid (now s)) = []).
    { unfold dropCall. now destruct valid. }
    rewrite Hs0, app_nil_r. clear Hs0.
    destruct (Nat.lt_ge_cases b1 (List.length (running s))) as [Hlt|Hge].
    + rewrite nth_error_app1 in Hb1 by exact Hlt.
      destruct (I6 b1 bt1 k f Hb1 Hk) as [Hc Hse].
      split; [|exact Hse].
      assert (Hc0 : callsOf (fileRef f) (dropCall valid (now s)) = []).
      { unfold dropCall. destruct valid as [|f0 rest] eqn:Ev; [reflexivity|].
        unfold callsOf. simpl.
        destruct (Nat.eqb_spec (fileRef f0) (fileRef f)) as [E|N]; [|reflexivity].
        exfalso. apply (Hfresh f f0); [|now left|congruence].
        now apply batch_file_known with b1 bt1 k. }
      now rewrite Hc0, app_nil_r.
    + rewrite nth_error_app2 in Hb1 by exact Hge.
      destruct valid as [|f0 rest] eqn:Ev.
      { simpl in Hb1. now destruct (b1 - List.length (running s))%nat. }
      unfold dropBatch in Hb1.
      destruct (b1 - List.length (running s))%nat as [|n];
        [|cbn [nth_error] in Hb1; now destruct n].
      cbn [nth_error] in Hb1. injection Hb1 as <-.
      change (nth_error (batchFiles (mkBatch (map newUpload (f0 :: rest)) 0)) k
              = Some f) in Hk.
      rewrite batchFiles_fresh in Hk. cbn [pos].
      assert (Hf : In f (f0 :: rest)) by now apply nth_error_In with k.
      rewrite (callsOf_nil _ (Hlog f Hf)), (settlesOf_nil _ (Hlog f Hf)).
      simpl app. split.
      * unfold dropCall, callsOf. simpl.
        destruct (Nat.eqb_spec (fileRef f0) (fileRef f)) as [E|N]; simpl.
        -- split; [intros _ | discriminate].
           rewrite NoDup_nth_error in Hndv.
           assert (k = 0%nat); [|lia].
           apply Hndv.
           ++ rewrite length_map. apply nth_error_Some. congruence.
           ++ rewrite !nth_error_map, Hk. simpl. now rewrite E.
        -- split; [congruence|]. intros Hle.
           assert (k = 0%nat) by lia. subst k. simpl in Hk. congruence.
      * split; [congruence | lia].
  - intros g Hg. unfold phase. rewrite En.
    assert (Hs0 : settlesOf (fileRef g) (apiLog s') = settlesOf (fileRef g) (apiLog s)).
    { rewrite El, settlesOf_app. unfold dropCall.
      destruct valid; simpl; now rewrite app_nil_r. }
    assert (He0 : entriesOf (fileRef g) (uploads s') =
                  entriesOf (fileRef g) (uploads s) ++
                  map newUpload (filter (fun f => Nat.eqb (fileRef f) (fileRef g)) valid)).
    { now rewrite Eu, entriesOf_app, entriesOf_fresh. }
    apply in_app_or in Hg. destruct Hg as [Hg|Hg].
    + (* a file of an earlier drop *)
      eapply phaseOf_ext; [exact Hs0| |now rewrite Et|reflexivity|exact (I7 g Hg)].
      rewrite He0.
      replace (filter (fun f => Nat.eqb (fileRef f) (fileRef g)) valid)
        with (@nil File); [apply app_nil_r|].
      symmetry. apply filter_none. intros f Hf.
      apply Nat.eqb_neq. intros E. now apply (Hfresh g f Hg Hf).
    + (* a file of this drop *)
      apply phaseOf_ext
        with (st := [])
             (en := map newUpload
                      (filter (fun f => Nat.eqb (fileRef f) (fileRef g)) valid))
             (tm := []) (nw := now s).
      * rewrite Hs0. apply settlesOf_nil. now apply Hlog.
      * rewrite He0.
        replace (entriesOf (fileRef g) (uploads s)) with (@nil UploadProgress);
          [reflexivity|].
        symmetry. apply entriesOf_nil. intros u Hu. apply Hfresh; [|exact Hg].
        now apply I4.
      * rewrite Et. apply timersOf_nil. intros due cb Hin.
        apply Hfresh; [|exact Hg]. now apply (I5 due cb).
      * reflexivity.
      * simpl. split; [|split; [|reflexivity]].
        -- apply map_not_nil. intros E.
           assert (H : In g (filter (fun f => Nat.eqb (fileRef f) (fileRef g)) valid)).
           { apply filter_In. split; [exact Hg | apply Nat.eqb_refl]. }
           now rewrite E in H.
        -- apply Forall_forall. intros u Hu. apply in_map_iff in Hu.
           now destruct Hu as [f [<- _]].
Qed.
End PreservationDrop.


(** *** Every run from mounting satisfies the invariant *)

Lemma dropped_prefix_NoDup es e :
  NoDup (map fileRef (dropped (es ++ [e]))) -> NoDup (map fileRef (dropped es)).
Proof.
  rewrite dropped_app, map_app. apply NoDup_app_remove_r.
Qed.

Section Reachable.
Variable isValidPDF : File -> bool.

Lemma invariant_step es e s s' :
  Invariant isValidPDF es s ->
  NoDup (map fileRef (dropped (es ++ [e]))) ->
  step isValidPDF e s = Some s' ->
  Invariant isValidPDF (es ++ [e]) s'.
Proof.
  intros Inv Hnd Hs. destruct e as [fs|b p|b o| |t].
  - simpl in Hs. injection Hs as <-. now apply invariant_drop.
  - simpl in Hs. destruct (nth_error (running s) b) as [bt|]; [|discriminate].
    destruct (inFlight bt) as [upload|]; [|discriminate].
    injection Hs as <-. now apply invariant_progress.
  - apply invariant_settle with s; [exact Inv| |exact Hs].
    now apply dropped_prefix_NoDup with (Settle b o).
  - simpl in Hs.
    destruct (takeDue (now s) (timers s)) as [[cb rest]|] eqn:E; [|discriminate].
    injection Hs as <-. now apply invariant_fire.
  - simpl in Hs.
    destruct (now s <=? t) eqn:E1; [|discriminate].
    destruct (forallb (fun tm => t <=? fst tm) (timers s)) eqn:E2; [|discriminate].
    injection Hs as <-. apply invariant_advance; [exact Inv|lia|].
    intros due cb Hin. rewrite forallb_forall in E2.
    specialize (E2 _ Hin). simpl in E2. lia.
Qed.

Lemma invariant_run es : forall t0 st s,
  NoDup (map fileRef (dropped es)) ->
  run isValidPDF es (mounted t0 st) = Some s ->
  Invariant isValidPDF es s.
Proof.
  induction es as [|e es IH] using rev_ind; intros t0 st s Hnd Hr.
  - simpl in Hr. injection Hr as <-. apply invariant_mounted.
  - apply run_snoc in Hr. destruct Hr as [s1 [Hr1 Hs]].
    apply invariant_step with s1; [|exact Hnd|exact Hs].
    apply (IH t0 st); [|exact Hr1]. now apply dropped_prefix_NoDup with e.
Qed.
End Reachable.

(** ** Sequential uploads *)

Lemma not_nil_In {A} (l : list A) : l <> [] -> exists x, In x l.
Proof. destruct l as [|x l]; [congruence | intros _; exists x; now left]. Qed.

Lemma In_not_nil {A} (l : list A) x : In x l -> l <> [].
Proof. destruct l; [contradiction | discriminate]. Qed.

Section Sequential.
Variable isValidPDF : File -> bool.
Variables (es : list Event) (t0 : Z) (st : DocumentStore) (s : Uploader).
Hypothesis Hdistinct : NoDup (map fileRef (dropped es)).
Hypothesis Hrun : run isValidPDF es (mounted t0 st) = Some s.

Lemma called_iff bt b k f :
  nth_error (running s) b = Some bt ->
  nth_error (batchFiles bt) k = Some f ->
  (exists t, In (t, UploadCalled f) (apiLog s)) <-> (k <= pos bt)%nat.
Proof.
  intros Hb Hk.
  pose proof (invariant_run isValidPDF es t0 st Hdistinct Hrun) as Inv.
  pose proof (allFiles_NoDup Inv Hdistinct) as Hnd.
  rewrite <- (proj1 (inv_loop Inv b k Hb Hk)). split.
  - intros [t Hin]. apply In_not_nil with t. now apply callsOf_In.
  - intros Hne. apply not_nil_In in Hne. destruct Hne as [t Ht].
    apply callsOf_inv in Ht. destruct Ht as [g [Hin E]].
    exists t. replace f with g; [exact Hin|].
    apply (NoDup_map_inj fileRef (allFiles s)); auto.
    + now apply (inv_log Inv t (UploadCalled g)).
    + now apply batch_file_known with b bt k.
Qed.

Lemma settled_iff bt b k f :
  nth_error (running s) b = Some bt ->
  nth_error (batchFiles bt) k = Some f ->
  (exists t ok, In (t, UploadSettled f ok) (apiLog s)) <-> (k < pos bt)%nat.
Proof.
  intros Hb Hk.
  pose proof (invariant_run isValidPDF es t0 st Hdistinct Hrun) as Inv.
  pose proof (allFiles_NoDup Inv Hdistinct) as Hnd.
  rewrite <- (proj2 (inv_loop Inv b k Hb Hk)). split.
  - intros [t [ok Hin]]. apply In_not_nil with (t, ok). now apply settlesOf_In.
  - intros Hne. apply not_nil_In in Hne. destruct Hne as [[t ok] Ht].
    apply settlesOf_inv in Ht. destruct Ht as [g [Hin E]].
    exists t, ok. replace f with g; [exact Hin|].
    apply (NoDup_map_inj fileRef (allFiles s)); auto.
    + now apply (inv_log Inv t (UploadSettled g ok)).
    + now apply batch_file_known with b bt k.
Qed.
End Sequential.

Lemma settle_calls_next isValidPDF s b bt uA uB o :
  nth_error (running s) b = Some bt ->
  inFlight bt = Some uA ->
  nth_error (newUploads bt) (S (pos bt)) = Some uB ->
  exists s',
    step isValidPDF (Settle b o) s = Some s' /\
    apiLog s' = apiLog s ++ [(now s, UploadSettled (file uA) (isResolved o));
                             (now s, UploadCalled (file uB))].
Proof.
  intros Hb Hu Hn.
  destruct (step isValidPDF (Settle b o) s) as [s'|] eqn:Hs.
  - exists s'. split; [reflexivity|].
    destruct (settle_shape _ _ _ _ Hs) as [bt' [u' [Hb' [Hu' [_ [_ [El _]]]]]]].
    rewrite Hb in Hb'. injection Hb' as <-. rewrite Hu in Hu'. injection Hu' as <-.
    rewrite El. unfold nextCall. rewrite Hn. now rewrite <- app_assoc.
  - simpl in Hs. rewrite Hb, Hu in Hs. discriminate.
Qed.

(** C4: in a run of the component from its mounting in which no file
    object is dropped twice, every drop with a valid file starts one
    loop over its valid files, in drop order; whenever the upload of a
    file [B] of the loop has been called, the upload of every file [A]
    before it in that loop has settled, resolved or rejected; once the
    upload of [A] has settled, either way, that of the next file has
    been called.  The turn that settles the upload in flight, whatever
    the outcome, logs the settlement and then the call for the next
    file. *)
Theorem uploads_are_sequential
  (isValidPDF : File -> bool) (es : list Event) (t0 : Z) (st : DocumentStore)
  (s : Uploader)
  (Hdistinct : NoDup (map fileRef (dropped es)))
  (Hrun : run isValidPDF es (mounted t0 st) = Some s) :
  (forall fs, In (Drop fs) es -> validFiles isValidPDF fs <> [] ->
     exists bt, In bt (running s) /\
                batchFiles bt = validFiles isValidPDF fs) /\
  (forall bt i j A B,
     In bt (running s) ->
     nth_error (batchFiles bt) i = Some A ->
     nth_error (batchFiles bt) j = Some B ->
     (i < j)%nat ->
     ((exists t, In (t, UploadCalled B) (apiLog s)) ->
      exists t ok, In (t, UploadSettled A ok) (apiLog s)) /\
     (j = S i ->
      (exists t ok, In (t, UploadSettled A ok) (apiLog s)) ->
      exists t, In (t, UploadCalled B) (apiLog s))) /\
  (forall b bt uA uB o,
     nth_error (running s) b = Some bt ->
     inFlight bt = Some uA ->
     nth_error (newUploads bt) (S (pos bt)) = Some uB ->
     exists s',
       step isValidPDF (Settle b o) s = Some s' /\
       apiLog s' =
         apiLog s ++ [(now s, UploadSettled (file uA) (isResolved o));
                      (now s, UploadCalled (file uB))]).
Proof.
  pose proof (invariant_run isValidPDF es t0 st Hdistinct Hrun) as Inv.
  split; [|split].
  - intros fs Hin Hne. destruct (inv_batches Inv fs Hin) as [H|H]; [contradiction|exact H].
  - intros bt i j A B Hbt Hi Hj Hlt.
    apply In_nth_error in Hbt. destruct Hbt as [b Hb].
    split.
    + intros HB.
      apply (@called_iff isValidPDF es t0 st s Hdistinct Hrun bt b j B Hb Hj) in HB.
      apply (@settled_iff isValidPDF es t0 st s Hdistinct Hrun bt b i A Hb Hi). lia.
    + intros -> HA.
      apply (@settled_iff isValidPDF es t0 st s Hdistinct Hrun bt b i A Hb Hi) in HA.
      apply (@called_iff isValidPDF es t0 st s Hdistinct Hrun bt b (S i) B Hb Hj). lia.
  - intros b bt uA uB o Hb Hu Hn. now apply settle_calls_next with bt.
Qed.

(** ** The life of an upload entry *)

Lemma pendingWork_app l1 l2 :
  pendingWork (l1 ++ l2) = (pendingWork l1 + pendingWork l2)%nat.
Proof. unfold pendingWork. now rewrite map_app, list_sum_app. Qed.

Lemma timerWeight_pos cb : (1 <= timerWeight cb)%nat.
Proof. destruct cb; simpl; lia. Qed.

Lemma takeDue_none t ts :
  takeDue t ts = None -> forall due cb, In (due, cb) ts -> t < due.
Proof.
  induction ts as [|[due0 cb0] ts IH]; simpl; intros H due cb Hin; [contradiction|].
  destruct (Z.leb_spec due0 t); [discriminate|].
  destruct (takeDue t ts) as [[? ?]|]; [discriminate|].
  destruct Hin as [E|Hin]; [injection E as <- <-; lia | now apply (IH eq_refl due cb)].
Qed.

Lemma minDue_le d ts :
  minDue d ts <= d /\ forall due cb, In (due, cb) ts -> minDue d ts <= due.
Proof.
  induction ts as [|[due0 cb0] ts [IH1 IH2]]; simpl.
  - split; [lia | contradiction].
  - split; [lia|]. intros due cb [E|Hin].
    + injection E as <- <-. lia.
    + specialize (IH2 due cb Hin). lia.
Qed.

Lemma minDue_attained d ts :
  minDue d ts = d \/ exists cb, In (minDue d ts, cb) ts.
Proof.
  induction ts as [|[due0 cb0] ts IH]; simpl; [now left|].
  destruct (Z.min_spec due0 (minDue d ts)) as [[_ ->]|[_ ->]].
  - right. exists cb0. now left.
  - destruct IH as [IH|[cb IH]]; [now left | right; exists cb; now right].
Qed.

Lemma minDue_lower t d ts :
  t <= d -> (forall due cb, In (due, cb) ts -> t < due) -> t <= minDue d ts.
Proof.
  intros Hd H. induction ts as [|[due0 cb0] ts IH]; simpl; [exact Hd|].
  assert (t < due0) by (apply (H due0 cb0); now left).
  assert (t <= minDue d ts) by (apply IH; intros due cb Hin; apply (H due cb); now right).
  lia.
Qed.

Lemma fire_work s cb rest :
  takeDue (now s) (timers s) = Some (cb, rest) ->
  (pendingWork
     (timers (runTimer cb
                (mkUploader (now s) (uploads s) (store s) (toasts s) rest
                            (running s) (apiLog s)))) <
   pendingWork (timers s))%nat.
Proof.
  intros H. destruct (takeDue_split _ _ H) as [due [l1 [l2 [-> [-> _]]]]].
  destruct cb; simpl; rewrite !pendingWork_app; unfold pendingWork; simpl; lia.
Qed.

Lemma advance_enabled isValidPDF s t :
  now s <= t -> (forall due cb, In (due, cb) (timers s) -> t <= due) ->
  step isValidPDF (Advance t) s =
  Some (mkUploader t (uploads s) (store s) (toasts s) (timers s) (running s)
                   (apiLog s)).
Proof.
  intros Hn Hd. simpl.
  replace (now s <=? t) with true by (symmetry; now apply Z.leb_le).
  replace (forallb (fun tm => t <=? fst tm) (timers s)) with true; [reflexivity|].
  symmetry. apply forallb_forall. intros [due cb] Hin. simpl.
  apply Z.leb_le. now apply (Hd due cb).
Qed.

(** Time can always pass: whatever is pending, the clock reaches any
    later instant through timer events alone. *)
Lemma elapse isValidPDF n : forall s T,
  (pendingWork (timers s) <= n)%nat -> now s <= T ->
  exists es' s',
    Forall isTimerEvent es' /\ run isValidPDF es' s = Some s' /\ now s' = T.
Proof.
  induction n as [|n IH]; intros s T Hw HT.
  - (* nothing is pending *)
    assert (Hts : timers s = []).
    { destruct (timers s) as [|[due cb] ts]; [reflexivity|].
      unfold pendingWork in Hw. simpl in Hw.
      pose proof (timerWeight_pos cb). lia. }
    exists [Advance T]. eexists. split; [repeat constructor|].
    cbn [run]. rewrite advance_enabled; [split; reflexivity|exact HT|].
    rewrite Hts. intros due cb [].
  - destruct (takeDue (now s) (timers s)) as [[cb rest]|] eqn:Htake.
    + (* a timer is due *)
      pose proof (fire_work s Htake) as Hlt.
      set (s1 := runTimer cb
                   (mkUploader (now s) (uploads s) (store s) (toasts s) rest
                               (running s) (apiLog s))) in *.
      assert (Hn1 : now s1 = now s) by now destruct cb.
      destruct (IH s1 T) as [es' [s' [Hes [Hr Hn]]]]; [lia|lia|].
      exists (Fire :: es'), s'. split; [constructor; [exact I|exact Hes]|].
      split; [|exact Hn]. simpl. rewrite Htake. exact Hr.
    + (* none is: the clock moves to the next instant of interest *)
      pose proof (takeDue_none _ _ Htake) as Hlater.
      set (m := minDue T (timers s)).
      destruct (minDue_le T (timers s)) as [HmT Hmd]. fold m in HmT, Hmd.
      assert (Hnm : now s <= m) by now apply minDue_lower.
      set (s1 := mkUploader m (uploads s) (store s) (toasts s) (timers s)
                            (running s) (apiLog s)).
      assert (Hadv : step isValidPDF (Advance m) s = Some s1)
        by now apply advance_enabled.
      destruct (minDue_attained T (timers s)) as [Em|[cb Hcb]]; fold m in Em || fold m in Hcb.
      * exists [Advance m], s1. split; [repeat constructor|].
        split; [cbn [run]; now rewrite Hadv | exact Em].
      * destruct (@takeDue_some m (timers s) m cb Hcb (Z.le_refl m))
          as [cb' [rest Htake']].
        pose proof (@fire_work s1 cb' rest Htake') as Hlt.
        set (s2 := runTimer cb'
                     (mkUploader (now s1) (uploads s1) (store s1) (toasts s1) rest
                                 (running s1) (apiLog s1))) in *.
        assert (Hn2 : now s2 = m) by now destruct cb'.
        destruct (IH s2 T) as [es' [s' [Hes [Hr Hn]]]];
          [simpl in Hlt; lia | lia |].
        exists (Advance m :: Fire :: es'), s'.
        split; [repeat constructor; exact Hes|].
        split; [|exact Hn].
        cbn [run]. rewrite Hadv. cbn [run].
        assert (Hfire : step isValidPDF Fire s1 = Some s2).
        { unfold step. change (takeDue (now s1) (timers s1))
            with (takeDue m (timers s)). now rewrite Htake'. }
        rewrite Hfire. exact Hr.
Qed.

Lemma timer_events_frame isValidPDF es' : forall s s',
  Forall isTimerEvent es' -> run isValidPDF es' s = Some s' ->
  dropped es' = [] /\ apiLog s' = apiLog s /\ store s' = store s /\
  running s' = running s.
Proof.
  induction es' as [|e es' IH]; intros s s' Hes Hr.
  - simpl in Hr. injection Hr as <-. repeat split.
  - inversion Hes as [|? ? He Hes']; subst. simpl in Hr.
    destruct (step isValidPDF e s) as [s1|] eqn:Hs; [|discriminate].
    destruct (IH s1 s' Hes' Hr) as [Ed [El [Est Er]]].
    destruct e as [fs|b p|b o| |t]; try contradiction; simpl in Hs.
    + destruct (takeDue (now s) (timers s)) as [[cb rest]|]; [|discriminate].
      injection Hs as <-. rewrite El, Est, Er.
      unfold dropped in *. simpl. now destruct cb.
    + destruct ((now s <=? t) && forallb (fun tm => t <=? fst tm) (timers s));
        [|discriminate].
      injection Hs as <-. rewrite El, Est, Er.
      unfold dropped in *. simpl. now split.
Qed.

Lemma entries_shown f st s :
  entriesOf (fileRef f) (uploads s) <> [] ->
  Forall (fun u => ustatus u = st) (entriesOf (fileRef f) (uploads s)) ->
  shown f st s.
Proof.
  intros Hne Hall. split.
  - apply not_nil_In in Hne. destruct Hne as [u Hu].
    apply entriesOf_In in Hu. exists u. split; [tauto|].
    unfold sameFile. apply Nat.eqb_eq. tauto.
  - intros u Hu Hsame. rewrite Forall_forall in Hall. apply Hall.
    apply entriesOf_In. split; [exact Hu|].
    unfold sameFile in Hsame. now apply Nat.eqb_eq.
Qed.

Lemma entries_hidden f s :
  entriesOf (fileRef f) (uploads s) = [] -> hidden f s.
Proof.
  intros E u Hu. unfold sameFile. apply Nat.eqb_neq.
  revert u Hu. now apply entriesOf_nil.
Qed.

Section Lifecycle.
Variable isValidPDF : File -> bool.
Variables (es : list Event) (t0 : Z) (st : DocumentStore) (s : Uploader).
Hypothesis Hdistinct : NoDup (map fileRef (dropped es)).
Hypothesis Hrun : run isValidPDF es (mounted t0 st) = Some s.

Lemma resolved_entry f t :
  In (t, UploadSettled f true) (apiLog s) ->
  (shown f Processing s /\ now s <= t + 1000) \/
  (shown f Completed s /\ t + 1000 <= now s <= t + 4000) \/
  (hidden f s /\ t + 4000 <= now s).
Proof.
  intros Hin.
  pose proof (invariant_run isValidPDF es t0 st Hdistinct Hrun) as Inv.
  pose proof (inv_phase Inv f (inv_log Inv _ _ Hin)) as Hp.
  apply settlesOf_In in Hin. unfold phase, phaseOf in Hp.
  destruct (settlesOf (fileRef f) (apiLog s)) as [|[t1 ok] more];
    [contradiction|].
  destruct ok, more; try contradiction.
  - destruct Hin as [E|[]]. injection E as ->.
    destruct Hp as [[H1 [H2 [H3 _]]]|[[H1 [H2 [H3 _]]]|[H1 [H3 _]]]].
    + left. split; [now apply entries_shown | exact H3].
    + right; left. split; [now apply entries_shown | exact H3].
    + right; right. split; [now apply entries_hidden | exact H3].
  - destruct Hin as [E|[]]. discriminate.
Qed.

Lemma rejected_entry f t :
  In (t, UploadSettled f false) (apiLog s) -> shown f Errored s.
Proof.
  intros Hin.
  pose proof (invariant_run isValidPDF es t0 st Hdistinct Hrun) as Inv.
  pose proof (inv_phase Inv f (inv_log Inv _ _ Hin)) as Hp.
  apply settlesOf_In in Hin. unfold phase, phaseOf in Hp.
  destruct (settlesOf (fileRef f) (apiLog s)) as [|[t1 ok] more];
    [contradiction|].
  destruct ok, more; try contradiction.
  - destruct Hin as [E|[]]. discriminate.
  - destruct Hp as [H1 [H2 _]]. now apply entries_shown.
Qed.
(** While an upload is awaited its file is in the list, as
    ['uploading']. *)
Lemma inflight_entry b bt upload :
  nth_error (running s) b = Some bt -> inFlight bt = Some upload ->
  shown (file upload) Uploading s.
Proof.
  intros Hb Hu.
  pose proof (invariant_run isValidPDF es t0 st Hdistinct Hrun) as Inv.
  assert (Hk : nth_error (batchFiles bt) (pos bt) = Some (file upload)).
  { unfold batchFiles. rewrite nth_error_map. unfold inFlight in Hu.
    now rewrite Hu. }
  assert (Hnone : settlesOf (fileRef (file upload)) (apiLog s) = []).
  { apply nil_iff_not. intros H.
    apply (proj2 (inv_loop Inv b (pos bt) Hb Hk)) in H. lia. }
  pose proof (inv_phase Inv _ (batch_file_known s b (pos bt) Hb Hk)) as Hp.
  unfold phase in Hp. rewrite Hnone in Hp. destruct Hp as [H1 [H2 _]].
  now apply entries_shown.
Qed.
End Lifecycle.

(** C7: in a run of the component from its mounting in which no file
    object is dropped twice, an upload that resolved at instant [t] has
    its entry shown as ['processing'] until [t + 1000], as ['completed']
    from [t + 1000] to [t + 4000], and gone from [t + 4000] on (at the
    two instants themselves the timer may or may not have run yet); an
    upload that was rejected has its entry shown as ['error'] in every
    later state, so it is never removed.  Time does pass: from any such
    state the clock reaches every later instant [T] through timer events
    alone, and there the entries are as said. *)
Theorem upload_entry_lifecycle
  (isValidPDF : File -> bool) (es : list Event) (t0 : Z) (st : DocumentStore)
  (s : Uploader)
  (Hdistinct : NoDup (map fileRef (dropped es)))
  (Hrun : run isValidPDF es (mounted t0 st) = Some s) :
  (forall f t,
     In (t, UploadSettled f true) (apiLog s) ->
     (shown f Processing s /\ now s <= t + 1000) \/
     (shown f Completed s /\ t + 1000 <= now s <= t + 4000) \/
     (hidden f s /\ t + 4000 <= now s)) /\
  (forall f t,
     In (t, UploadSettled f false) (apiLog s) -> shown f Errored s) /\
  (forall T, now s <= T ->
     exists es' s',
       Forall isTimerEvent es' /\
       run isValidPDF es' s = Some s' /\ now s' = T /\
       (forall f t,
          In (t, UploadSettled f true) (apiLog s) ->
          (T < t + 1000 -> shown f Processing s') /\
          (t + 1000 < T < t + 4000 -> shown f Completed s') /\
          (t + 4000 < T -> hidden f s')) /\
       (forall f t,
          In (t, UploadSettled f false) (apiLog s) -> shown f Errored s')).
Proof.
  split; [|split].
  - intros f t. now apply resolved_entry with isValidPDF es t0 st.
  - intros f t. now apply rejected_entry with isValidPDF es t0 st.
  - intros T HT.
    destruct (@elapse isValidPDF (pendingWork (timers s)) s T (le_n _) HT)
      as [es' [s' [Hes [Hr Hn]]]].
    exists es', s'. split; [exact Hes|]. split; [exact Hr|]. split; [exact Hn|].
    destruct (timer_events_frame _ _ Hes Hr) as [Ed [El _]].
    assert (Hdistinct' : NoDup (map fileRef (dropped (es ++ es')))).
    { rewrite dropped_app, Ed, app_nil_r. exact Hdistinct. }
    assert (Hrun' : run isValidPDF (es ++ es') (mounted t0 st) = Some s').
    { rewrite run_app, Hrun. exact Hr. }
    split.
    + intros f t Hin. rewrite <- El in Hin.
      rewrite <- Hn.
      destruct (@resolved_entry isValidPDF (es ++ es') t0 st s'
                  Hdistinct' Hrun' f t Hin)
        as [[H1 H2]|[[H1 H2]|[H1 H2]]]; (split; [|split]); intros H;
        try (exfalso; lia); assumption.
    + intros f t Hin. rewrite <- El in Hin.
      now apply rejected_entry with isValidPDF (es ++ es') t0 st t.
Qed.

(** ** The sample session *)

Lemma session_distinct : NoDup (map fileRef (dropped Sample.session)).
Proof. vm_compute. repeat constructor; simpl; intuition discriminate. Qed.

Lemma session_run :
  run Host.isValidPDF Sample.session (mounted 0 initialStore) =
  Some Sample.sessionEnd.
Proof. vm_compute. reflexivity. Qed.

Lemma uploads_are_sequential_witness :
  map batchFiles (running Sample.sessionEnd) = [[Sample.fileA; Sample.fileB]] /\
  (exists t, In (t, UploadCalled Sample.fileB) (apiLog Sample.sessionEnd)) /\
  (exists t ok, In (t, UploadSettled Sample.fileA ok) (apiLog Sample.sessionEnd)).
Proof.
  split; [reflexivity|].
  assert (Hcalled : exists t,
            In (t, UploadCalled Sample.fileB) (apiLog Sample.sessionEnd)).
  { exists 0. vm_compute. tauto. }
  split; [exact Hcalled|].
  destruct (@uploads_are_sequential Host.isValidPDF Sample.session 0
              initialStore Sample.sessionEnd session_distinct session_run)
    as [_ [Hseq _]].
  apply (Hseq (mkBatch [newUpload Sample.fileA; newUpload Sample.fileB] 2)
              0%nat 1%nat Sample.fileA Sample.fileB);
    [vm_compute; tauto | reflexivity | reflexivity | lia | exact Hcalled].
Defined.

Lemma upload_entry_lifecycle_witness :
  now Sample.sessionEnd = 10000 /\
  hidden Sample.fileA Sample.sessionEnd /\
  shown Sample.fileB Errored Sample.sessionEnd.
Proof.
  split; [reflexivity|].
  destruct (@upload_entry_lifecycle Host.isValidPDF Sample.session 0
              initialStore Sample.sessionEnd session_distinct session_run)
    as [Hok [Hfail _]].
  split.
  - destruct (Hok Sample.fileA 0) as [[_ H]|[[_ H]|[H _]]].
    + vm_compute. tauto.
    + vm_compute in H. destruct H. reflexivity.
    + vm_compute in H. destruct H as [_ H]. destruct H. reflexivity.
    + exact H.
  - apply (Hfail Sample.fileB 2500). vm_compute. tauto.
Defined.
(** * Further properties *)

(** ** The store's actions together *)

Lemma filter_filter_same {A} (p : A -> bool) l :
  filter p (filter p l) = filter p l.
Proof.
  induction l as [|x l IH]; simpl; [reflexivity|].
  destruct (p x) eqn:E; simpl; rewrite ?E, IH; reflexivity.
Qed.

Lemma filter_comm {A} (p q : A -> bool) l :
  filter p (filter q l) = filter q (filter p l).
Proof.
  induction l as [|x l IH]; simpl; [reflexivity|].
  destruct (p x) eqn:Ep, (q x) eqn:Eq; simpl; rewrite ?Ep, ?Eq, IH; reflexivity.
Qed.

Lemma filter_all {A} (p : A -> bool) l :
  (forall x, In x l -> p x = true) -> filter p l = l.
Proof.
  induction l as [|x l IH]; simpl; intros H; [reflexivity|].
  rewrite (H x) by now left. f_equal. apply IH. intros y Hy. apply H. now right.
Qed.

Lemma store_eq (a b : DocumentStore) :
  documents a = documents b -> currentDocument a = currentDocument b ->
  currentSummary a = currentSummary b ->
  processingStatus a = processingStatus b -> isLoading a = isLoading b ->
  error a = error b -> a = b.
Proof. destruct a, b; simpl; intros; subst; reflexivity. Qed.

Lemma removeDocument_current id0 s :
  currentDocumentIs id0 (removeDocument id0 s) = false /\
  currentSummaryOf id0 (removeDocument id0 s) = false.
Proof.
  unfold removeDocument, currentDocumentIs, currentSummaryOf; simpl. split.
  - destruct (currentDocument s) as [d|]; [|reflexivity].
    destruct (String.eqb (id d) id0) eqn:E; [reflexivity|exact E].
  - destruct (currentSummary s) as [sm|]; [|reflexivity].
    destruct (String.eqb (documentId sm) id0) eqn:E; [reflexivity|exact E].
Qed.

(** X1: once [removeDocument id0] has run, no document, current document
    or current summary of the store refers to [id0]; running it again
    changes nothing, and two removals give the same store in either
    order. *)
Theorem removeDocument_settles (id0 id1 : string) (s : DocumentStore) :
  (forall d, In d (documents (removeDocument id0 s)) -> id d <> id0) /\
  (forall d, currentDocument (removeDocument id0 s) = Some d -> id d <> id0) /\
  (forall sm, currentSummary (removeDocument id0 s) = Some sm ->
              documentId sm <> id0) /\
  removeDocument id0 (removeDocument id0 s) = removeDocument id0 s /\
  removeDocument id0 (removeDocument id1 s) =
    removeDocument id1 (removeDocument id0 s).
Proof.
  destruct (removeDocument_current id0 s) as [Hd Hs].
  split; [|split; [|split; [|split]]].
  - intros d Hin. simpl in Hin. apply filter_In in Hin.
    destruct Hin as [_ H]. now apply negb_true_iff, String.eqb_neq in H.
  - intros d E. unfold currentDocumentIs in Hd. rewrite E in Hd.
    now apply String.eqb_neq.
  - intros sm E. unfold currentSummaryOf in Hs. rewrite E in Hs.
    now apply String.eqb_neq.
  - apply store_eq; try reflexivity.
    + simpl. apply filter_filter_same.
    + unfold removeDocument at 1. simpl currentDocument at 1. now rewrite Hd.
    + unfold removeDocument at 1. simpl currentSummary at 1. now rewrite Hs.
  - apply store_eq; try reflexivity.
    + simpl. apply filter_comm.
    + unfold removeDocument, currentDocumentIs; simpl.
      destruct (currentDocument s) as [d|]; [|reflexivity].
      destruct (String.eqb (id d) id0) eqn:E0, (String.eqb (id d) id1) eqn:E1;
        simpl; rewrite ?E0, ?E1; reflexivity.
    + unfold removeDocument, currentSummaryOf; simpl.
      destruct (currentSummary s) as [sm|]; [|reflexivity].
      destruct (String.eqb (documentId sm) id0) eqn:E0,
               (String.eqb (documentId sm) id1) eqn:E1;
        simpl; rewrite ?E0, ?E1; reflexivity.
Qed.

(** X2: removing a document that was just added undoes the addition:
    the store is the one [removeDocument] gives without the addition,
    and it is the store before the addition when nothing in it referred
    to the document's id. *)
Theorem addDocument_then_removeDocument (doc : Document) (s : DocumentStore) :
  removeDocument (id doc) (addDocument doc s) = removeDocument (id doc) s /\
  ((forall d, In d (documents s) -> id d <> id doc) ->
   currentDocumentIs (id doc) s = false ->
   currentSummaryOf (id doc) s = false ->
   removeDocument (id doc) (addDocument doc s) = s).
Proof.
  assert (H1 : removeDocument (id doc) (addDocument doc s) =
               removeDocument (id doc) s).
  { apply store_eq; try reflexivity. simpl. now rewrite String.eqb_refl. }
  split; [exact H1|].
  intros Hno Hd Hs. rewrite H1. apply store_eq; try reflexivity.
  - simpl. apply filter_all. intros d Hin.
    now apply negb_true_iff, String.eqb_neq, Hno.
  - simpl. now rewrite Hd.
  - simpl. now rewrite Hs.
Qed.

Lemma addDocument_then_removeDocument_witness :
  removeDocument (id Sample.docA)
    (addDocument Sample.docA (mkStore [Sample.docB] None None None false None)) =
  mkStore [Sample.docB] None None None false None.
Proof.
  apply (proj2 (addDocument_then_removeDocument Sample.docA
                  (mkStore [Sample.docB] None None None false None))).
  - intros d [<-|[]]. discriminate.
  - reflexivity.
  - reflexivity.
Defined.

Lemma merge_combine d u1 u2 : merge (merge d u1) u2 = merge d (combine u1 u2).
Proof.
  destruct d, u1 as [a1 a2 a3 a4 a5 a6 a7 a8 a9 a10],
           u2 as [b1 b2 b3 b4 b5 b6 b7 b8 b9 b10].
  unfold merge, combine; simpl.
  destruct b1, b2, b3, b4, b5, b6, b7, b8, b9, b10; reflexivity.
Qed.

Lemma merge_noFields d : merge d noFields = d.
Proof. now destruct d. Qed.

Lemma merge_keeps_id d u id0 :
  p_id u = None \/ p_id u = Some id0 -> id d = id0 -> id (merge d u) = id0.
Proof. intros [E|E] Hd; simpl; rewrite E; simpl; congruence. Qed.

Lemma updateDocument_currentDocument id0 u s :
  currentDocument (updateDocument id0 u s) =
  option_map (updated id0 u) (currentDocument s).
Proof.
  unfold updateDocument, currentDocumentIs, updated; simpl.
  destruct (currentDocument s) as [d|]; [|reflexivity].
  simpl. now destruct (String.eqb (id d) id0).
Qed.

Lemma updated_twice id0 u1 u2 d :
  p_id u1 = None \/ p_id u1 = Some id0 ->
  updated id0 u2 (updated id0 u1 d) = updated id0 (combine u1 u2) d.
Proof.
  intros Hid. unfold updated at 2 3.
  destruct (String.eqb (id d) id0) eqn:E.
  - apply String.eqb_eq in E. unfold updated.
    rewrite (@merge_keeps_id d u1 id0 Hid E), String.eqb_refl.
    apply merge_combine.
  - unfold updated. now rewrite E.
Qed.

Lemma updated_noFields id0 d : updated id0 noFields d = d.
Proof.
  unfold updated. destruct (String.eqb (id d) id0);
    [apply merge_noFields | reflexivity].
Qed.

(** X3: an update without fields changes nothing; two updates of the
    same id amount to one update with the second object spread over the
    first, provided the first does not give the document another id. *)
Theorem updateDocument_composes (id0 : string) (u1 u2 : PartialDocument)
  (s : DocumentStore)
  (Hid : p_id u1 = None \/ p_id u1 = Some id0) :
  updateDocument id0 noFields s = s /\
  updateDocument id0 u2 (updateDocument id0 u1 s) =
    updateDocument id0 (combine u1 u2) s.
Proof.
  split.
  - apply store_eq; try reflexivity.
    + rewrite updated_documents. rewrite <- (map_id (documents s)) at 2.
      apply map_ext. apply updated_noFields.
    + rewrite updateDocument_currentDocument.
      destruct (currentDocument s) as [d|]; [|reflexivity].
      simpl. now rewrite updated_noFields.
  - apply store_eq; try reflexivity.
    + rewrite !updated_documents, map_map. apply map_ext.
      intros d. now apply updated_twice.
    + rewrite !updateDocument_currentDocument.
      destruct (currentDocument s) as [d|]; [|reflexivity].
      simpl. now rewrite updated_twice.
Qed.

Lemma updateDocument_composes_witness :
  documents
    (updateDocument "2" (statusUpdate Completed)
       (updateDocument "2" (statusUpdate Errored)
          (mkStore [Sample.docA; Sample.docB] (Some Sample.docB) None None
                   false None))) =
  [Sample.docA; merge Sample.docB (statusUpdate Completed)].
Proof.
  rewrite (proj2 (@updateDocument_composes "2" (statusUpdate Errored)
                    (statusUpdate Completed)
                    (mkStore [Sample.docA; Sample.docB] (Some Sample.docB) None
                             None false None)
                    (or_introl eq_refl))).
  reflexivity.
Defined.

Lemma removeDocument_currentDocument id0 s :
  currentDocument (removeDocument id0 s) =
  match currentDocument s with
  | Some d => if String.eqb (id d) id0 then None else Some d
  | None => None
  end.
Proof.
  unfold removeDocument, currentDocumentIs; simpl.
  now destruct (currentDocument s).
Qed.

(** X4: after [removeDocument id0] an update of [id0] finds nothing to
    change; and a removal wipes out an earlier update of the same id,
    provided the update did not give the document another id. *)
Theorem updateDocument_and_removeDocument (id0 : string) (u : PartialDocument)
  (s : DocumentStore) :
  updateDocument id0 u (removeDocument id0 s) = removeDocument id0 s /\
  (p_id u = None \/ p_id u = Some id0 ->
   removeDocument id0 (updateDocument id0 u s) = removeDocument id0 s).
Proof.
  split.
  - apply store_eq; try reflexivity.
    + rewrite updated_documents.
      rewrite <- (map_id (documents (removeDocument id0 s))) at 2.
      apply map_ext_in. intros d Hin. simpl in Hin. apply filter_In in Hin.
      destruct Hin as [_ H]. apply negb_true_iff in H.
      unfold updated. now rewrite H.
    + rewrite updateDocument_currentDocument, removeDocument_currentDocument.
      destruct (currentDocument s) as [d|]; [|reflexivity].
      destruct (String.eqb (id d) id0) eqn:E; [reflexivity|].
      simpl. unfold updated. now rewrite E.
  - intros Hid. apply store_eq; try reflexivity.
    + change (documents (removeDocument id0 (updateDocument id0 u s)))
        with (filter (fun doc => negb (String.eqb (id doc) id0))
                     (documents (updateDocument id0 u s))).
      rewrite updated_documents. cbn [documents removeDocument].
      induction (documents s) as [|d l IH]; [reflexivity|].
      cbn [map filter]. destruct (String.eqb (id d) id0) eqn:E.
      * apply String.eqb_eq in E. rewrite (@updated_match id0 u d E).
        rewrite (@merge_keeps_id d u id0 Hid E), String.eqb_refl. exact IH.
      * apply String.eqb_neq in E. rewrite (@updated_other id0 u d E).
        apply String.eqb_neq in E. rewrite E. cbn [negb]. now f_equal.
    + rewrite !removeDocument_currentDocument, updateDocument_currentDocument.
      destruct (currentDocument s) as [d|]; [|reflexivity].
      simpl. unfold updated. destruct (String.eqb (id d) id0) eqn:E.
      * apply String.eqb_eq in E.
        now rewrite (@merge_keeps_id d u id0 Hid E), String.eqb_refl.
      * now rewrite E.
Qed.

(** ** What a run of the upload pipeline does to the store *)

Lemma step_store isValidPDF e s s' :
  step isValidPDF e s = Some s' ->
  store s' =
  match e with
  | Settle _ (Resolved doc) => addDocument doc (store s)
  | Settle _ (Rejected t) =>
      setError (Some (thrownMessage "Upload failed" t)) (store s)
  | _ => store s
  end.
Proof.
  intros Hs. destruct e as [fs|b p|b o| |t].
  - simpl in Hs. injection Hs as <-. unfold onDrop.
    now destruct (validFiles isValidPDF fs).
  - simpl in Hs. destruct (nth_error (running s) b) as [bt|]; [|discriminate].
    destruct (inFlight bt); [|discriminate]. now injection Hs as <-.
  - apply step_settle_inv in Hs. destruct Hs as [bt [upload [_ [_ ->]]]].
    destruct o as [doc|t];
      match goal with
      | |- context [nextIteration ?b ?bt ?x] =>
          destruct (nextIteration_frame b bt x) as [_ [_ [Es _]]]
      end; now rewrite Es.
  - simpl in Hs. destruct (takeDue (now s) (timers s)) as [[cb rest]|];
      [|discriminate].
    injection Hs as <-. now destruct cb.
  - simpl in Hs.
    destruct ((now s <=? t) && forallb (fun tm => t <=? fst tm) (timers s));
      [|discriminate].
    now injection Hs as <-.
Qed.

Lemma lastRejected_from es : forall acc,
  fold_left (fun a e => match e with
                        | Settle _ (Rejected t) => Some t
                        | _ => a
                        end) es acc =
  match lastRejected es with Some t => Some t | None => acc end.
Proof.
  unfold lastRejected. induction es as [|e es IH]; intros acc; simpl.
  - reflexivity.
  - rewrite IH. rewrite (IH (match e with
                            | Settle _ (Rejected t) => Some t
                            | _ => None
                            end)).
    destruct (fold_left _ es None); [reflexivity|].
    destruct e as [| |b [doc|t]| |]; reflexivity.
Qed.

(** X5: whatever happens in the upload component, the store's collection
    only grows at its front, by the documents the uploads resolved
    with, the latest first; the current document, the current summary,
    the processing status and the loading flag are never touched. *)
Theorem run_prepends_resolved_documents
  (isValidPDF : File -> bool) (es : list Event) (s0 s : Uploader)
  (Hrun : run isValidPDF es s0 = Some s) :
  documents (store s) = rev (resolvedDocs es) ++ documents (store s0) /\
  currentDocument (store s) = currentDocument (store s0) /\
  currentSummary (store s) = currentSummary (store s0) /\
  processingStatus (store s) = processingStatus (store s0) /\
  isLoading (store s) = isLoading (store s0).
Proof.
  revert s0 Hrun. induction es as [|e es IH]; intros s0 Hrun; simpl in Hrun.
  - injection Hrun as <-. repeat split.
  - destruct (step isValidPDF e s0) as [s1|] eqn:Hs; [|discriminate].
    destruct (IH s1 Hrun) as [Hd [Hc [Hsm [Hp Hl]]]].
    rewrite Hd, Hc, Hsm, Hp, Hl, (step_store _ _ _ Hs).
    unfold resolvedDocs. simpl flat_map. fold (resolvedDocs es).
    destruct e as [fs|b p|b [doc|t]| |t]; simpl; repeat split;
      try reflexivity.
    now rewrite <- app_assoc.
Qed.

Lemma run_prepends_resolved_documents_witness :
  documents (store Sample.sessionEnd) = [Sample.docA].
Proof.
  destruct (@run_prepends_resolved_documents Host.isValidPDF Sample.session
              (mounted 0 initialStore) Sample.sessionEnd session_run)
    as [H _].
  rewrite H. reflexivity.
Defined.

(** X6: after a run the store's [error] is the message of the last
    rejected upload, and the earlier value when no upload was rejected:
    no later event of the component, a successful upload included,
    clears it. *)
Theorem run_keeps_last_upload_error
  (isValidPDF : File -> bool) (es : list Event) (s0 s : Uploader)
  (Hrun : run isValidPDF es s0 = Some s) :
  error (store s) =
  match lastRejected es with
  | Some t => Some (thrownMessage "Upload failed" t)
  | None => error (store s0)
  end.
Proof.
  revert s0 Hrun. induction es as [|e es IH]; intros s0 Hrun; simpl in Hrun.
  - now injection Hrun as <-.
  - destruct (step isValidPDF e s0) as [s1|] eqn:Hs; [|discriminate].
    rewrite (IH s1 Hrun), (step_store _ _ _ Hs).
    unfold lastRejected at 2. simpl fold_left. rewrite lastRejected_from.
    destruct (lastRejected es); [reflexivity|].
    destruct e as [fs|b p|b [doc|t]| |t]; reflexivity.
Qed.

Lemma run_keeps_last_upload_error_witness :
  error (store Sample.sessionEnd) = Some "Network Error".
Proof.
  rewrite (@run_keeps_last_upload_error Host.isValidPDF Sample.session
             (mounted 0 initialStore) Sample.sessionEnd session_run).
  reflexivity.
Defined.

(** ** Uploads awaited at one time *)

Lemma length_replaceNth {A} (l : list A) : forall b x,
  List.length (replaceNth b x l) = List.length l.
Proof.
  induction l as [|y l IH]; intros [|b] x; simpl; try reflexivity.
  now rewrite IH.
Qed.

Lemma count_replaceNth {A} (p : A -> bool) (l : list A) : forall b x y,
  nth_error l b = Some y ->
  (List.length (filter p (replaceNth b x l)) + (if p y then 1 else 0) =
   List.length (filter p l) + (if p x then 1 else 0))%nat.
Proof.
  induction l as [|z l IH]; intros [|b] x y H; simpl in *; try discriminate.
  - injection H as ->. destruct (p x), (p y); simpl; lia.
  - specialize (IH b x y H). destruct (p z); simpl; lia.
Qed.

Lemma filter_split_length {A} (p : A -> bool) l :
  (List.length (filter p l) + List.length (filter (fun x => negb (p x)) l) =
   List.length l)%nat.
Proof.
  induction l as [|x l IH]; simpl; [reflexivity|].
  destruct (p x); simpl; lia.
Qed.

Lemma nextCall_counts bt t :
  List.length (filter isCall (nextCall bt t)) =
    (if awaiting (mkBatch (newUploads bt) (S (pos bt))) then 1 else 0)%nat /\
  List.length (filter (fun ev => negb (isCall ev)) (nextCall bt t)) = 0%nat.
Proof.
  unfold nextCall, awaiting, inFlight. cbn [newUploads pos].
  now destruct (nth_error (newUploads bt) (S (pos bt))).
Qed.

Lemma step_balanced isValidPDF e s s' :
  step isValidPDF e s = Some s' -> balanced s ->
  balanced s' /\
  (List.length (running s') <=
   List.length (running s) + (if isDrop e then 1 else 0))%nat.
Proof.
  unfold balanced. intros Hs Hb. destruct e as [fs|b p|b o| |t].
  - simpl in Hs. injection Hs as <-.
    destruct (onDrop_shape isValidPDF fs s) as [_ [_ [Er El]]].
    rewrite Er, El, !filter_app, !length_app.
    destruct (validFiles isValidPDF fs) as [|f0 rest]; simpl;
      (split; [rewrite Hb|]; lia).
  - simpl in Hs. destruct (nth_error (running s) b) as [bt|]; [|discriminate].
    destruct (inFlight bt); [|discriminate]. injection Hs as <-. simpl. lia.
  - destruct (settle_shape _ _ _ _ Hs)
      as [bt [upload [Hbt [Hu [_ [Er [El _]]]]]]].
    rewrite Er, El, !filter_app, !length_app, length_replaceNth.
    pose proof (count_replaceNth awaiting (running s) b
                  (mkBatch (newUploads bt) (S (pos bt))) Hbt) as Hc.
    assert (Ha : awaiting bt = true) by (unfold awaiting; now rewrite Hu).
    rewrite Ha in Hc.
    destruct (nextCall_counts bt (now s)) as [Hn1 Hn2].
    rewrite Hn1, Hn2. cbn [filter isCall snd negb List.length].
    destruct (awaiting (mkBatch (newUploads bt) (S (pos bt)))); lia.
  - simpl in Hs. destruct (takeDue (now s) (timers s)) as [[cb rest]|];
      [|discriminate].
    injection Hs as <-. destruct cb; simpl; lia.
  - simpl in Hs.
    destruct ((now s <=? t) && forallb (fun tm => t <=? fst tm) (timers s));
      [|discriminate].
    injection Hs as <-. simpl. lia.
Qed.

Lemma run_balanced isValidPDF es : forall s0 s,
  run isValidPDF es s0 = Some s -> balanced s0 ->
  balanced s /\
  (List.length (running s) <=
   List.length (running s0) + List.length (filter isDrop es))%nat.
Proof.
  induction es as [|e es IH]; intros s0 s Hr Hb; simpl in Hr.
  - injection Hr as <-. split; [exact Hb | simpl; lia].
  - destruct (step isValidPDF e s0) as [s1|] eqn:Hs; [|discriminate].
    destruct (@step_balanced isValidPDF e s0 s1 Hs Hb) as [Hb1 Hl1].
    destruct (IH s1 s Hr Hb1) as [Hb2 Hl2]. split; [exact Hb2|].
    simpl. destruct (isDrop e); simpl in *; lia.
Qed.

Lemma filter_length_le {A} (p : A -> bool) l :
  (List.length (filter p l) <= List.length l)%nat.
Proof. induction l as [|x l IH]; simpl; [lia|]. destruct (p x); simpl; lia. Qed.

(** X7: at any point of a run from mounting, the uploads called and not
    yet settled are as many as the [onDrop] loops still awaiting one, so
    at most one per drop made so far, however many files were dropped. *)
Theorem one_upload_awaited_per_drop
  (isValidPDF : File -> bool) (es : list Event) (t0 : Z) (st : DocumentStore)
  (s : Uploader)
  (Hrun : run isValidPDF es (mounted t0 st) = Some s) :
  outstanding s = List.length (filter awaiting (running s)) /\
  (outstanding s <= List.length (filter isDrop es))%nat.
Proof.
  destruct (@run_balanced isValidPDF es (mounted t0 st) s Hrun) as [Hb Hl].
  { reflexivity. }
  unfold balanced in Hb. unfold outstanding. simpl in Hl.
  pose proof (filter_length_le awaiting (running s)). lia.
Qed.

Lemma one_upload_awaited_per_drop_witness :
  (outstanding Sample.sessionEnd <= 1)%nat.
Proof.
  apply (proj2 (@one_upload_awaited_per_drop Host.isValidPDF Sample.session 0
                  initialStore Sample.sessionEnd session_run)).
Defined.

(** ** The statuses of the upload list *)

Lemma timersOf_In r ts tm :
  In tm (timersOf r ts) <->
  In tm ts /\ fileRef (timerFile (snd tm)) = r.
Proof. unfold timersOf. now rewrite filter_In, Nat.eqb_eq. Qed.

Lemma sameFile_ref a b : sameFile a b = true <-> fileRef a = fileRef b.
Proof. unfold sameFile. apply Nat.eqb_eq. Qed.

Section Statuses.
Variable isValidPDF : File -> bool.
Variables (es : list Event) (s : Uploader).
Hypothesis Inv : Invariant isValidPDF es s.

(** The entries of a file whose upload is awaited are ['uploading']. *)
Lemma awaited_uploading b bt upload u :
  nth_error (running s) b = Some bt -> inFlight bt = Some upload ->
  In u (uploads s) -> sameFile (file u) (file upload) = true ->
  ustatus u = Uploading.
Proof.
  intros Hb Hu Hin Hsame.
  assert (Hk : nth_error (batchFiles bt) (pos bt) = Some (file upload)).
  { unfold batchFiles. rewrite nth_error_map. unfold inFlight in Hu.
    now rewrite Hu. }
  assert (Hnone : settlesOf (fileRef (file upload)) (apiLog s) = []).
  { apply nil_iff_not. intros H.
    apply (proj2 (inv_loop Inv b (pos bt) Hb Hk)) in H. lia. }
  pose proof (inv_phase Inv _ (batch_file_known s b (pos bt) Hb Hk)) as Hp.
  unfold phase in Hp. rewrite Hnone in Hp. destruct Hp as [_ [H2 _]].
  rewrite Forall_forall in H2. apply H2. apply entriesOf_In.
  split; [exact Hin | now apply sameFile_ref].
Qed.

(** The entries a due timer finds: ['processing'] for the one that
    marks them completed, ['completed'] for the one that drops them. *)
Lemma due_timer_finds cb rest u :
  takeDue (now s) (timers s) = Some (cb, rest) ->
  In u (uploads s) -> sameFile (file u) (timerFile cb) = true ->
  ustatus u = match cb with
              | MarkCompleted _ => Processing
              | RemoveUpload _ => Completed
              end.
Proof.
  intros Htake Hin Hsame.
  destruct (takeDue_split _ _ Htake) as [due [l1 [l2 [Ets [_ _]]]]].
  assert (Htm : In (due, cb) (timers s)).
  { rewrite Ets. apply in_or_app. right. now left. }
  assert (Hown : In (due, cb) (timersOf (fileRef (timerFile cb)) (timers s))).
  { apply timersOf_In. now split. }
  pose proof (inv_phase Inv _ (inv_timers Inv _ _ Htm)) as Hp.
  assert (Hu : In u (entriesOf (fileRef (timerFile cb)) (uploads s))).
  { apply entriesOf_In. split; [exact Hin | now apply sameFile_ref]. }
  unfold phase, phaseOf in Hp.
  destruct (settlesOf (fileRef (timerFile cb)) (apiLog s)) as [|[t ok] more].
  - destruct Hp as [_ [_ E]]. rewrite E in Hown. contradiction.
  - destruct ok, more; try contradiction.
    + destruct Hp as [[_ [H2 [_ [f E]]]]|[[_ [H2 [_ [f E]]]]|[_ [_ E]]]].
      * rewrite E in Hown. destruct Hown as [X|[]]. injection X as _ <-.
        rewrite Forall_forall in H2. now apply H2.
      * rewrite E in Hown. destruct Hown as [X|[]]. injection X as _ <-.
        rewrite Forall_forall in H2. now apply H2.
      * rewrite E in Hown. contradiction.
    + destruct Hp as [_ [_ E]]. rewrite E in Hown. contradiction.
Qed.
End Statuses.

Lemma forward_refl a : forward a a = true.
Proof. now destruct a. Qed.

(** X8: from a state reached in a run without a file object dropped
    twice, one more event leaves every entry with its file and a status
    that is the same or one move ahead (['uploading'] to ['processing']
    or to ['error'], ['processing'] to ['completed']), new entries being
    the valid files of a drop, at ['uploading'] and progress 0; and an
    entry leaves the list only when it is ['completed']. *)
Theorem entry_status_moves_forward
  (isValidPDF : File -> bool) (es : list Event) (e : Event) (t0 : Z)
  (st : DocumentStore) (s s' : Uploader)
  (Hdistinct : NoDup (map fileRef (dropped es)))
  (Hrun : run isValidPDF es (mounted t0 st) = Some s)
  (Hstep : step isValidPDF e s = Some s') :
  (forall u', In u' (uploads s') ->
     (exists u, In u (uploads s) /\ file u = file u' /\
                forward (ustatus u) (ustatus u') = true) \/
     (ustatus u' = Uploading /\ progress u' = 0 /\
      exists fs, e = Drop fs /\ In (file u') (validFiles isValidPDF fs))) /\
  (forall u, In u (uploads s) ->
     (exists u', In u' (uploads s') /\ file u' = file u) \/
     ustatus u = Completed).
Proof.
  pose proof (invariant_run isValidPDF es t0 st Hdistinct Hrun) as Inv.
  destruct e as [fs|b p|b o| |t].
  - simpl in Hstep. injection Hstep as <-. rewrite onDrop_uploads. split.
    + intros u' Hin. apply in_app_or in Hin. destruct Hin as [Hin|Hin].
      * left. exists u'. now rewrite forward_refl.
      * right. apply in_map_iff in Hin. destruct Hin as [f [<- Hf]].
        repeat split. now exists fs.
    + intros u Hin. left. exists u. split; [|reflexivity].
      apply in_or_app. now left.
  - simpl in Hstep.
    destruct (nth_error (running s) b) as [bt|] eqn:Hb; [|discriminate].
    destruct (inFlight bt) as [upload|] eqn:Hu; [|discriminate].
    injection Hstep as <-. simpl uploads. split.
    + intros u' Hin. left. apply mapFile_In in Hin. destruct Hin as [u [Hu' ->]].
      exists u. split; [exact Hu'|].
      destruct (sameFile (file u) (file upload)); simpl;
        now rewrite forward_refl.
    + intros u Hin. left.
      exists (if sameFile (file u) (file upload) then setProgress p u else u).
      split.
      * unfold mapFile. apply in_map_iff. now exists u.
      * now destruct (sameFile (file u) (file upload)).
  - destruct (settle_shape _ _ _ _ Hstep)
      as [bt [upload [Hb [Hu [_ [_ [_ [Eu _]]]]]]]].
    rewrite Eu. split.
    + intros u' Hin. left. apply mapFile_In in Hin. destruct Hin as [u [Hu' ->]].
      exists u. split; [exact Hu'|].
      destruct (sameFile (file u) (file upload)) eqn:E.
      * rewrite settleEntry_file. split; [reflexivity|].
        rewrite (@awaited_uploading _ _ _ Inv b bt upload u Hb Hu Hu' E). now destruct o.
      * now rewrite forward_refl.
    + intros u Hin. left.
      exists (if sameFile (file u) (file upload) then settleEntry o u else u).
      split.
      * unfold mapFile. apply in_map_iff. now exists u.
      * destruct (sameFile (file u) (file upload));
          [apply settleEntry_file | reflexivity].
  - simpl in Hstep.
    destruct (takeDue (now s) (timers s)) as [[cb rest]|] eqn:Htake;
      [|discriminate].
    injection Hstep as <-. destruct cb as [f|f]; simpl uploads.
    + split.
      * intros u' Hin. left. apply mapFile_In in Hin.
        destruct Hin as [u [Hu' ->]]. exists u. split; [exact Hu'|].
        destruct (sameFile (file u) f) eqn:E.
        -- split; [reflexivity|].
           now rewrite (@due_timer_finds _ _ _ Inv _ _ u Htake Hu' E).
        -- now rewrite forward_refl.
      * intros u Hin. left.
        exists (if sameFile (file u) f then toCompleted u else u). split.
        -- unfold mapFile. apply in_map_iff. now exists u.
        -- now destruct (sameFile (file u) f).
    + split.
      * intros u' Hin. left. apply filter_In in Hin. exists u'.
        rewrite forward_refl. tauto.
      * intros u Hin. destruct (sameFile (file u) f) eqn:E.
        -- right. exact (@due_timer_finds _ _ _ Inv _ _ u Htake Hin E).
        -- left. exists u. split; [|reflexivity].
           apply filter_In. split; [exact Hin | now rewrite E].
  - simpl in Hstep.
    destruct ((now s <=? t) && forallb (fun tm => t <=? fst tm) (timers s));
      [|discriminate].
    injection Hstep as <-. simpl. split.
    + intros u' Hin. left. exists u'. now rewrite forward_refl.
    + intros u Hin. left. now exists u.
Qed.

Lemma prefix_distinct es1 es2 :
  NoDup (map fileRef (dropped (es1 ++ es2))) ->
  NoDup (map fileRef (dropped es1)).
Proof. rewrite dropped_app, map_app. apply NoDup_app_remove_r. Qed.

Lemma awaitingB_run :
  run Host.isValidPDF (firstn 5 Sample.session) (mounted 0 initialStore) =
  Some Scene.awaitingB.
Proof. vm_compute. reflexivity. Qed.

Lemma rejectedB_step :
  step Host.isValidPDF (Settle 0 (Rejected Sample.networkError)) Scene.awaitingB =
  Some Scene.rejectedB.
Proof. vm_compute. reflexivity. Qed.

Lemma entry_status_moves_forward_witness :
  exists u, In u (uploads Scene.awaitingB) /\
            file u = Sample.fileB /\ forward (ustatus u) Errored = true.
Proof.
  destruct (@entry_status_moves_forward Host.isValidPDF
              (firstn 5 Sample.session)
              (Settle 0 (Rejected Sample.networkError)) 0 initialStore
              Scene.awaitingB Scene.rejectedB)
    as [H _].
  - apply (@prefix_distinct (firstn 5 Sample.session) (skipn 5 Sample.session)).
    rewrite firstn_skipn. exact session_distinct.
  - exact awaitingB_run.
  - exact rejectedB_step.
  - destruct (H (mkUpload Sample.fileB 0 Errored (Some "Network Error")))
      as [[u [Hin [Hf Hfw]]]|[X _]].
    + vm_compute. tauto.
    + exists u. split; [exact Hin | split; [exact Hf | exact Hfw]].
    + discriminate.
Defined.




(** ** The list page *)

Lemma prefix_app sub : forall s,
  String.prefix sub s = true <-> exists post, s = (sub ++ post)%string.
Proof.
  induction sub as [|c sub IH]; intros s.
  - split; [intros _; now exists s | now destruct s].
  - destruct s as [|c' s]; simpl.
    + split; [discriminate | intros [post H]; discriminate].
    + destruct (ascii_dec c c') as [->|Hne].
      * rewrite IH. split; intros [post H]; exists post.
        -- now rewrite H.
        -- now injection H.
      * split; [discriminate|]. intros [post H]. injection H as H _.
        now elim Hne.
Qed.

(** [includes] finds its argument somewhere in the string. *)
Lemma includes_spec sub : forall s,
  includes s sub = true <->
  exists pre post, s = (pre ++ sub ++ post)%string.
Proof.
  induction s as [|c s IH].
  - cbn [includes]. destruct (String.prefix sub "") eqn:E.
    + apply prefix_app in E. destruct E as [post E].
      split; [intros _; now exists "", post | reflexivity].
    + split; [discriminate|]. intros [pre [post H]].
      destruct pre; simpl in H.
      * assert (X : String.prefix sub "" = true)
          by (apply prefix_app; now exists post).
        congruence.
      * discriminate.
  - cbn [includes]. destruct (String.prefix sub (String c s)) eqn:E.
    + apply prefix_app in E. destruct E as [post E].
      split; [intros _; now exists "", post | reflexivity].
    + rewrite IH. split.
      * intros [pre [post H]]. exists (String c pre), post. simpl. now rewrite H.
      * intros [pre [post H]]. destruct pre as [|c' pre]; simpl in H.
        -- assert (X : String.prefix sub (String c s) = true)
             by (apply prefix_app; now exists post).
           congruence.
        -- injection H as _ H. now exists pre, post.
Qed.

Lemma truthy_spec q : truthy q = false <-> q = "".
Proof. destruct q; simpl; split; congruence. Qed.

Lemma statusIs_selected fb st :
  statusIs fb st = true <-> selected fb = Some st.
Proof. destruct fb, st; simpl; split; congruence. Qed.

(** What the [filter] callback keeps. *)
Lemma keeps_spec toLowerCase fb q d :
  keeps toLowerCase fb q d = true <->
  (fb = FilterAll \/ selected fb = Some (status d)) /\
  (q = "" \/ exists pre post,
     toLowerCase (originalName d) = (pre ++ toLowerCase q ++ post)%string).
Proof.
  unfold keeps. rewrite <- includes_spec, <- truthy_spec, <- statusIs_selected.
  destruct fb, (status d); simpl;
    destruct (truthy q); simpl;
    destruct (includes (toLowerCase (originalName d)) (toLowerCase q)); simpl;
    intuition congruence.
Qed.

(** X10: a document is in the list view exactly when it is in the
    collection, the status filter is ['all'] or names its status, and
    the search text is empty or its lower-cased form occurs somewhere in
    the lower-cased original name; so a document still ['uploading'] is
    listed under ['all'] only. *)
Theorem view_membership
  (toLowerCase : string -> string) (getTime : string -> option Z)
  (localeCompare : string -> string -> Z)
  (filterBy : FilterBy) (searchQuery : string) (sortBy : SortBy)
  (docs : list Document) (d : Document) :
  let view := filteredAndSortedDocuments toLowerCase getTime localeCompare
                filterBy searchQuery sortBy docs in
  (In d view <->
   In d docs /\
   (filterBy = FilterAll \/ selected filterBy = Some (status d)) /\
   (searchQuery = "" \/ exists pre post,
      toLowerCase (originalName d) =
      (pre ++ toLowerCase searchQuery ++ post)%string)) /\
  (In d view /\ status d = Uploading -> filterBy = FilterAll).
Proof.
  intros view.
  assert (H : In d view <->
              In d docs /\ keeps toLowerCase filterBy searchQuery d = true).
  { rewrite <- filter_In. unfold view. split; apply Permutation_in.
    - apply view_perm.
    - apply Permutation_sym, view_perm. }
  split.
  - rewrite H, keeps_spec. reflexivity.
  - intros [Hin Hst]. apply H in Hin. destruct Hin as [_ Hk].
    apply keeps_spec in Hk. destruct Hk as [[Hk|Hk] _]; [exact Hk|].
    rewrite Hst in Hk. now destruct filterBy.
Qed.

Lemma view_length toLowerCase getTime localeCompare fb q sb docs :
  List.length (filteredAndSortedDocuments toLowerCase getTime localeCompare
                 fb q sb docs) =
  List.length (filter (keeps toLowerCase fb q) docs).
Proof. apply Permutation_length, view_perm. Qed.

Lemma keeps_status toLowerCase fb d :
  keeps toLowerCase fb "" d =
  match selected fb with
  | Some st => DocStatus_eqb (status d) st
  | None => true
  end.
Proof. unfold keeps. destruct fb; simpl; now destruct (status d). Qed.

Lemma status_partition (docs : list Document) :
  List.length docs =
  (List.length (filter (fun d => DocStatus_eqb (status d) Completed) docs) +
   List.length (filter (fun d => DocStatus_eqb (status d) Processing) docs) +
   List.length (filter (fun d => DocStatus_eqb (status d) Errored) docs) +
   List.length (filter (fun d => DocStatus_eqb (status d) Uploading) docs))%nat.
Proof.
  induction docs as [|d docs IH]; [reflexivity|].
  simpl. destruct (status d); simpl; lia.
Qed.

(** X11: the counters of the list page are the sizes of its views with
    no search text: [total] that of the filter ['all'], [completed] and
    [processing] those of the filters of these names, for every sort
    order; the three status filters and the documents still
    ['uploading'] make up the total, and no counter exceeds it. *)
Theorem stats_count_the_views
  (toLowerCase : string -> string) (getTime : string -> option Z)
  (localeCompare : string -> string -> Z) (sortBy : SortBy)
  (docs : list Document) :
  let size fb := List.length (filteredAndSortedDocuments toLowerCase getTime
                                localeCompare fb "" sortBy docs) in
  stats_total (stats docs) = size FilterAll /\
  stats_completed (stats docs) = size FilterCompleted /\
  stats_processing (stats docs) = size FilterProcessing /\
  (stats_total (stats docs) =
   stats_completed (stats docs) + stats_processing (stats docs) +
   size FilterError +
   List.length (filter (fun d => DocStatus_eqb (status d) Uploading) docs))%nat /\
  (stats_withSummary (stats docs) <= stats_total (stats docs))%nat.
Proof.
  intros size. unfold size. rewrite !view_length.
  rewrite !(filter_ext _ _ (keeps_status toLowerCase _)). simpl.
  split; [|split; [|split; [|split]]].
  - now rewrite filter_all.
  - reflexivity.
  - reflexivity.
  - apply status_partition.
  - apply filter_length_le.
Qed.

Lemma arraySort_nil {A} (cmp : A -> A -> Z) l : arraySort cmp l = [] -> l = [].
Proof.
  intros H. pose proof (Permutation_length (arraySort_perm cmp l)) as E.
  rewrite H in E. now destruct l.
Qed.

(** X12: what the list page renders below the upload zone: nothing when
    the collection is empty, else the spinner while loading, else the
    failure panel when the store's error is a non-empty message, else
    the cards of the view, or, when the view is empty, the heading ['No
    documents match your criteria']; the heading ['No documents yet'] is
    rendered in no state. *)
Theorem documentsSection_cases
  (toLowerCase : string -> string) (getTime : string -> option Z)
  (localeCompare : string -> string -> Z) (st : DocumentStore)
  (filterBy : FilterBy) (searchQuery : string) (sortBy : SortBy) :
  let view := filteredAndSortedDocuments toLowerCase getTime localeCompare
                filterBy searchQuery sortBy (documents st) in
  let section := documentsSection toLowerCase getTime localeCompare st
                   filterBy searchQuery sortBy in
  (documents st = [] /\ section = NoSection) \/
  (documents st <> [] /\ isLoading st = true /\ section = LoadingSpinner) \/
  (documents st <> [] /\ isLoading st = false /\ errorShown st = true /\
   section = LoadFailed) \/
  (documents st <> [] /\ isLoading st = false /\ errorShown st = false /\
   view = [] /\ (searchQuery <> "" \/ filterBy <> FilterAll) /\
   section = NothingToShow "No documents match your criteria"
                           "Try adjusting your search or filters") \/
  (documents st <> [] /\ isLoading st = false /\ errorShown st = false /\
   view <> [] /\ section = Cards view).
Proof.
  intros view section. unfold section, documentsSection. fold view.
  destruct (documents st) as [|d0 docs] eqn:Ed; [now left|]. right.
  assert (Hne : d0 :: docs <> []) by discriminate.
  destruct (isLoading st); [now left|]. right.
  destruct (errorShown st); [now left|]. right.
  destruct view as [|d v] eqn:Ev.
  - left.
    destruct (truthy searchQuery) eqn:Eq.
    + repeat split; try assumption. left. intros X. apply truthy_spec in X.
      congruence.
    + destruct filterBy; simpl;
        try (repeat split; try assumption; right; discriminate).
      exfalso. apply truthy_spec in Eq. subst searchQuery.
      unfold view, filteredAndSortedDocuments in Ev.
      apply arraySort_nil in Ev.
      rewrite (filter_ext _ _ (keeps_status toLowerCase FilterAll)) in Ev.
      simpl in Ev. discriminate.
  - right. repeat split; try assumption. discriminate.
Qed.

Lemma arraySort_fixed {A} (cmp : A -> A -> Z) l :
  StronglySorted (fun a b => cmp a b <= 0) l -> arraySort cmp l = l.
Proof.
  induction 1 as [|x l Hs IH Hx]; [reflexivity|].
  simpl. rewrite IH. destruct l as [|y l]; [reflexivity|].
  simpl. inversion Hx as [|? ? Hxy _]; subst.
  apply Z.ltb_ge in Hxy. now rewrite Hxy.
Qed.

(** X13: sorted by ['size'] the view is in descending order of file
    size, with no condition on the documents; and for every sort key, a
    view whose kept documents are already in the comparator's order is
    these documents in the collection's order. *)
Theorem view_size_descending
  (toLowerCase : string -> string) (getTime : string -> option Z)
  (localeCompare : string -> string -> Z)
  (filterBy : FilterBy) (searchQuery : string) (docs : list Document) :
  let view := filteredAndSortedDocuments toLowerCase getTime localeCompare
                filterBy searchQuery in
  StronglySorted (fun a b => fileSize b <= fileSize a) (view Size docs) /\
  (forall sortBy,
     StronglySorted
       (fun a b => compareDocs getTime localeCompare sortBy a b <= 0)
       (filter (keeps toLowerCase filterBy searchQuery) docs) ->
     view sortBy docs = filter (keeps toLowerCase filterBy searchQuery) docs).
Proof.
  intros view. unfold view, filteredAndSortedDocuments. split.
  - apply StronglySorted_impl
      with (R := fun a b => compareDocs getTime localeCompare Size a b <= 0)
           (Q := fun _ => True).
    + intros a b _ _. simpl. lia.
    + apply Forall_forall. now intros.
    + apply arraySort_sorted with (P := fun _ => True).
      * simpl. intros. lia.
      * simpl. intros. lia.
      * apply Forall_forall. now intros.
  - intros sortBy. apply arraySort_fixed.
Qed.

(** ** Loading, deleting and the shared store *)

(** X14: a rejected upload hides the list.  When the collection is not
    empty and nothing is loading, the turn that handles an upload
    rejected with a non-empty message leaves the list page rendering the
    panel ['Failed to load documents'] in place of the cards, for every
    filter, search text and sort key. *)
Theorem rejected_upload_hides_the_list
  (isValidPDF : File -> bool) (toLowerCase : string -> string)
  (getTime : string -> option Z) (localeCompare : string -> string -> Z)
  (b : nat) (t : Thrown) (s s' : Uploader)
  (filterBy : FilterBy) (searchQuery : string) (sortBy : SortBy)
  (Hstep : step isValidPDF (Settle b (Rejected t)) s = Some s')
  (Hdocs : documents (store s) <> [])
  (Hidle : isLoading (store s) = false)
  (Hmsg : thrownMessage "Upload failed" t <> "") :
  documentsSection toLowerCase getTime localeCompare (store s')
                   filterBy searchQuery sortBy = LoadFailed.
Proof.
  rewrite (step_store _ _ _ Hstep). unfold documentsSection, errorShown.
  simpl. destruct (documents (store s)); [congruence|].
  rewrite Hidle.
  destruct (truthy (thrownMessage "Upload failed" t)) eqn:E; [reflexivity|].
  apply truthy_spec in E. contradiction.
Qed.

Lemma rejected_upload_hides_the_list_witness :
  documentsSection Host.toLowerCase Host.getTime Host.localeCompare
                   (store Scene.rejectedB) FilterAll "" Recent = LoadFailed.
Proof.
  apply (@rejected_upload_hides_the_list Host.isValidPDF Host.toLowerCase
           Host.getTime Host.localeCompare 0 Sample.networkError
           Scene.awaitingB Scene.rejectedB FilterAll "" Recent rejectedB_step).
  - vm_compute. discriminate.
  - reflexivity.
  - vm_compute. discriminate.
Defined.



Lemma removeDocument_not_In id0 st d :
  In d (documents (removeDocument id0 st)) -> id d <> id0.
Proof.
  simpl. intros H. apply filter_In in H. destruct H as [_ H].
  apply negb_true_iff in H. now apply String.eqb_neq in H.
Qed.

(** X17: the delete button of a card.  [deleteDocument] is called once
    with the document's id when the dialog is confirmed and not at all
    when it is declined, in which case nothing changes; [isDeleting] is
    raised while the call is awaited and lowered at the end.  After a
    confirmed delete that succeeded no view of the list page holds a
    document with that id, and the section below the upload zone is gone
    when no other document is left. *)
Theorem handleDelete_card
  (toLowerCase : string -> string) (getTime : string -> option Z)
  (localeCompare : string -> string -> Z)
  (confirmed : bool) (document : Document) (o : Settled unit) (c : Card)
  (filterBy : FilterBy) (searchQuery : string) (sortBy : SortBy) :
  let c' := handleDelete confirmed document o c in
  let st' := pg_store (card_page (handleDelete true document (Resolved tt) c)) in
  deleteCalls c' = deleteCalls c ++ (if confirmed then [id document] else []) /\
  (confirmed = false -> c' = c) /\
  (confirmed = true -> isDeleting c' = false) /\
  isDeleting (fst (handleDelete_begin true document c)) = true /\
  (forall d, In d (filteredAndSortedDocuments toLowerCase getTime localeCompare
                     filterBy searchQuery sortBy (documents st')) ->
             id d <> id document) /\
  ((forall d, In d (documents (pg_store (card_page c))) -> id d = id document) ->
   documentsSection toLowerCase getTime localeCompare st'
                    filterBy searchQuery sortBy = NoSection).
Proof.
  intros c' st'. unfold c', st'.
  split; [|split; [|split; [|split; [|split]]]].
  - destruct confirmed; simpl; [reflexivity | now rewrite app_nil_r].
  - now intros ->.
  - now intros ->.
  - reflexivity.
  - intros d Hin.
    apply (Permutation_in _ (view_perm _ _ _ _ _ _ _)) in Hin.
    apply filter_In in Hin. destruct Hin as [Hin _].
    apply (@removeDocument_not_In (id document) (pg_store (card_page c)) d).
    exact Hin.
  - intros Hall. unfold documentsSection.
    replace (documents (pg_store (card_page
               (handleDelete true document (Resolved tt) c)))) with (@nil Document);
      [reflexivity|].
    simpl. symmetry.
    induction (documents (pg_store (card_page c))) as [|d l IH];
      [reflexivity|].
    simpl. rewrite (Hall d (or_introl eq_refl)), String.eqb_refl. simpl.
    apply IH. intros d' Hd'. apply Hall. now right.
Qed.

(** ** The viewer's page buttons and the navigation bar *)


Lemma isActive_root pathname : isActive pathname "/" = true <-> pathname = "/".
Proof. unfold isActive. simpl. apply String.eqb_eq. Qed.

(** X19: the navigation bar marks at most one of its three items as
    active.  ['/'] is active on the path ['/'] only, the two others on
    every path that starts with their [href], and none is on the path of
    a document. *)
Theorem navigation_marks_one_item (pathname : string) :
  (forall a b, In a navigation -> In b navigation ->
               isActive pathname a = true /\ isActive pathname b = true ->
               a = b) /\
  (isActive pathname "/" = true <-> pathname = "/") /\
  (forall a, In a navigation -> a <> "/" ->
             (isActive pathname a = true <->
              exists rest, pathname = (a ++ rest)%string)) /\
  (forall id0 a, In a navigation ->
                 isActive ("/document/" ++ id0)%string a = false).
Proof.
  split; [|split; [|split]].
  - intros a b Ha Hb [Aa Ab].
    assert (Hx : forall x, isActive pathname "/" = true ->
                           isActive pathname x = true -> In x navigation ->
                           "/" = x).
    { intros x H1 H2 Hx. apply isActive_root in H1. subst pathname.
      simpl in Hx. destruct Hx as [<-|[<-|[<-|[]]]];
        [reflexivity | discriminate | discriminate]. }
    assert (Hy : isActive pathname "/search" = true ->
                 isActive pathname "/insights" = true -> False).
    { unfold isActive. simpl. rewrite !prefix_app.
      intros [r1 ->] [r2 H]. discriminate. }
    simpl in Ha, Hb.
    destruct Ha as [<-|[<-|[<-|[]]]]; destruct Hb as [<-|[<-|[<-|[]]]];
      try reflexivity;
      try (now apply Hx; simpl; auto);
      try (symmetry; now apply Hx; simpl; auto);
      exfalso; auto.
  - apply isActive_root.
  - intros a Ha Hne. simpl in Ha.
    destruct Ha as [<-|[<-|[<-|[]]]]; [congruence| |];
      unfold isActive; simpl String.eqb; cbv iota; apply prefix_app.
  - intros id0 a Ha. simpl in Ha.
    destruct Ha as [<-|[<-|[<-|[]]]]; reflexivity.
Qed.
